(** * eventsource: the dispatcher of server.go

    A shallow embedding of [server.go]: the subscription records created by
    [Handler], the event channels they carry, the [run] loop with its two
    routing tables, and the [replay] goroutines started by [run].

    Go values that are shared by reference are kept in stores:
    - a [*subscription] is an address into [heap];
    - a [chan Event] is an identifier into [chans].
    An address or identifier without an entry plays the part of Go's [nil]:
    reading a field through it panics, sending on it blocks for ever and
    closing it panics.

    Every event channel keeps the sequence of sends that completed on it,
    each entry tagged with the goroutine that performed it (the [run] loop
    or the i-th [replay] goroutine).  The tag is specification state only.

    The event channels are unbuffered ([make(chan Event)]): a send on one
    completes only when the handler of its subscription receives.  The
    [world] keeps, for every event channel, where its handler is: not yet
    in its loop, in its loop (receiving), or out of it for good.  A send on
    an open channel whose handler is not receiving does not complete.  A
    handler in its loop comes back to its select after every event it
    encodes ([enc.Encode] and [flusher.Flush] are taken to return).

    The [run] loop handles one message in one step, and a step stands for
    a handling that ran to its end: one that waits in a send is [Blocked],
    and [exec] gives [Ok] only for a trace of steps that all completed.
    The sends of the [replay] goroutines and the moves of the handlers
    (reaching the select, leaving the loop) happen between those steps,
    in any order.  A replay send that in Go falls between two sends of
    one Publish goes to one path only, and sends on different paths
    commute ([chan_send_commute]), so it can be moved before or after the
    Publish; in the same way a handler that reaches its select while a
    Publish is under way is moved before it, and one that leaves after it
    has received the event is moved after it.
    Go leaves the order in which a map is ranged over open; here the loops
    over a set follow [elements]; [pub_list_order] and [quit_list_order]
    show that any other order gives the same result. *)

From stdpp Require Import base option list gmap sets strings.

(** ** Results of a Go statement *)

Inductive outcome (A : Type) : Type :=
  | Ok (a : A)      (* ran to completion *)
  | Panic           (* run-time panic: the process dies *)
  | Blocked.        (* the goroutine waits: the statement does not complete *)
Arguments Ok {A} a.
Arguments Panic {A}.
Arguments Blocked {A}.

Definition obind {A B} (f : A → outcome B) (x : outcome A) : outcome B :=
  match x with
  | Ok a => f a
  | Panic => Panic
  | Blocked => Blocked
  end.

Notation "x ←! y ; z" := (obind (λ x, z) y)
  (at level 20, y at level 100, z at level 200, right associativity,
   format "x  ←!  y ;  '/' z").

(** [for _, a := range l { s = f a s }] with early exit on panic or block. *)
Fixpoint foldM {A S} (f : A → S → outcome S) (l : list A) (s : S) : outcome S :=
  match l with
  | [] => Ok s
  | a :: l' => s' ←! f a s; foldM f l' s'
  end.

(** ** Data of server.go *)

Definition ptr := positive.       (* *subscription *)
Definition chan_id := positive.   (* chan Event *)

(** [type subscription struct] *)
Record subscription := Subscription {
  channel : string;
  lastEventId : string;
  out : chan_id;
}.

(** Where the handler that receives from an event channel is. *)
Inductive handler_state :=
  | AtStart   (* between building its subscription and its loop *)
  | InLoop    (* in its loop: it receives what is sent *)
  | Left.     (* out of its loop, for good: it receives nothing more *)

Global Instance handler_state_eq_dec : EqDecision handler_state.
Proof. solve_decision. Defined.

(** Who performed a send on an event channel. *)
Inductive origin :=
  | Live                  (* the [run] loop, for a Publish *)
  | Replayed (task : nat) (* the [task]-th goroutine started by [go replay] *).

Global Instance origin_eq_dec : EqDecision origin.
Proof. solve_decision. Defined.

Section eventsource.

(** The [Event] interface is declared outside server.go, and server.go
    never looks into an event: the development is parametric in it. *)
Context {Event : Type}.

(** Modelled from the spec: the [Repository] interface is declared outside
    server.go.  The spec gives its one method as
    [replay(channel, lastSeenId) -> lazy ordered sequence of Event],
    finite and oldest first; the channel returned by [Replay] is
    represented by the list of events it yields before it is closed. *)
Record Repository := { Replay : string → string → list Event }.

(** State of one [chan Event]. *)
Record chan := Chan {
  closed : bool;
  sent : list (origin * Event);
}.

(** [type registration struct], [type outbound struct] and the five
    channels of [Server] on which [run] selects. *)
Inductive message :=
  | MsgRegistrations (reg_channel : string) (repository : Repository)
  | MsgUnregister (sub : ptr)
  | MsgPub (channels : list string) (event : Event)
  | MsgSubs (sub : ptr)
  | MsgQuit.

(** A goroutine started by [go replay(repo, sub)]; [t_sent] counts the
    iterations of its loop that completed. *)
Record task := Task {
  t_repo : Repository;
  t_sub : ptr;
  t_sent : nat;
}.

Record world := World {
  heap : gmap ptr subscription;          (* allocated subscription structs *)
  chans : gmap chan_id chan;             (* channels made by make(chan Event) *)
  subs : gmap string (gset ptr);         (* local [subs] of run *)
  repos : gmap string Repository;        (* local [repos] of run *)
  tasks : list task;                     (* goroutines started by run *)
  running : bool;                        (* run has not returned *)
  handlers : gmap chan_id handler_state; (* the receiver of each channel *)
}.

(** [NewServer]: empty tables, [run] started. *)
Definition NewServer : world :=
  {| heap := ∅; chans := ∅; subs := ∅; repos := ∅; tasks := []; running := true;
     handlers := ∅ |}.

(** *** Channel operations *)

(** [c <- ev] on an unbuffered channel: it panics on a closed channel,
    completes when the handler of the channel is receiving, and waits
    otherwise. *)
Definition chan_send (hs : gmap chan_id handler_state) (o : origin)
    (ev : Event) (c : chan_id) (cs : gmap chan_id chan)
    : outcome (gmap chan_id chan) :=
  match cs !! c with
  | None => Blocked
  | Some st =>
      if closed st then Panic
      else if decide (hs !! c = Some InLoop)
      then Ok (<[c := {| closed := false; sent := sent st ++ [(o, ev)] |}]> cs)
      else Blocked
  end.

(** [close(c)] *)
Definition chan_close (c : chan_id) (cs : gmap chan_id chan)
    : outcome (gmap chan_id chan) :=
  match cs !! c with
  | None => Panic
  | Some st =>
      if closed st then Panic
      else Ok (<[c := {| closed := true; sent := sent st |}]> cs)
  end.

(** Field access through a [*subscription]. *)
Definition deref (h : gmap ptr subscription) (p : ptr) : outcome subscription :=
  match h !! p with
  | Some s => Ok s
  | None => Panic
  end.

(** *** The cases of the select in [run] *)

(** [repos[reg.channel] = reg.repository] *)
Definition run_registrations (c : string) (repo : Repository) (w : world)
    : outcome world :=
  Ok {| heap := heap w; chans := chans w; subs := subs w;
        repos := <[c := repo]> (repos w);
        tasks := tasks w; running := running w;
        handlers := handlers w |}.

(** [delete(subs[sub.channel], sub)]; deleting from the nil map of an
    absent channel does nothing. *)
Definition run_unregister (p : ptr) (w : world) : outcome world :=
  s ←! deref (heap w) p;
  let subs' :=
    match subs w !! channel s with
    | Some X => <[channel s := X ∖ {[p]}]> (subs w)
    | None => subs w
    end in
  Ok {| heap := heap w; chans := chans w; subs := subs';
        repos := repos w; tasks := tasks w; running := running w;
        handlers := handlers w |}.

(** [s.out <- pub.event] *)
Definition pub_one (hs : gmap chan_id handler_state)
    (h : gmap ptr subscription) (ev : Event) (p : ptr)
    (cs : gmap chan_id chan) : outcome (gmap chan_id chan) :=
  s ←! deref h p;
  chan_send hs Live ev (out s) cs.

(** [for s := range subs[c] { ... }]; ranging over the nil map of an absent
    channel runs no iteration. *)
Definition pub_channel (hs : gmap chan_id handler_state)
    (h : gmap ptr subscription)
    (sb : gmap string (gset ptr)) (ev : Event) (c : string)
    (cs : gmap chan_id chan) : outcome (gmap chan_id chan) :=
  foldM (pub_one hs h ev) (elements (default ∅ (sb !! c))) cs.

(** [for _, c := range pub.channels { ... }] *)
Definition run_pub (cl : list string) (ev : Event) (w : world) : outcome world :=
  cs ←! foldM (pub_channel (handlers w) (heap w) (subs w) ev) cl (chans w);
  Ok {| heap := heap w; chans := cs; subs := subs w;
        repos := repos w; tasks := tasks w; running := running w;
        handlers := handlers w |}.

(** The [srv.subs] case: make the channel's set if absent, insert, and
    start a replay when an id was given and a repository is registered. *)
Definition run_subs (p : ptr) (w : world) : outcome world :=
  s ←! deref (heap w) p;
  let subs1 :=
    match subs w !! channel s with
    | Some _ => subs w
    | None => <[channel s := ∅]> (subs w)
    end in
  let subs2 := <[channel s := {[p]} ∪ default ∅ (subs1 !! channel s)]> subs1 in
  let tasks' :=
    if decide (0 < String.length (lastEventId s)) then
      match repos w !! channel s with
      | Some repo => tasks w ++ [ {| t_repo := repo; t_sub := p; t_sent := 0 |} ]
      | None => tasks w
      end
    else tasks w in
  Ok {| heap := heap w; chans := chans w; subs := subs2;
        repos := repos w; tasks := tasks'; running := running w;
        handlers := handlers w |}.

(** [close(s.out)] *)
Definition quit_one (h : gmap ptr subscription) (p : ptr)
    (cs : gmap chan_id chan) : outcome (gmap chan_id chan) :=
  s ←! deref h p;
  chan_close (out s) cs.

(** [for s := range sub { ... }] *)
Definition quit_channel (h : gmap ptr subscription) (e : string * gset ptr)
    (cs : gmap chan_id chan) : outcome (gmap chan_id chan) :=
  foldM (quit_one h) (elements e.2) cs.

(** The [srv.quit] case: close every path in the table, then return. *)
Definition run_quit (w : world) : outcome world :=
  cs ←! foldM (quit_channel (heap w)) (map_to_list (subs w)) (chans w);
  Ok {| heap := heap w; chans := cs; subs := subs w;
        repos := repos w; tasks := tasks w; running := false;
        handlers := handlers w |}.

(** One turn of the [for { select { ... } }] of [run].  Once [run] has
    returned nobody receives on the server's channels: the sender waits. *)
Definition run (m : message) (w : world) : outcome world :=
  if running w then
    match m with
    | MsgRegistrations c repo => run_registrations c repo w
    | MsgUnregister p => run_unregister p w
    | MsgPub cl ev => run_pub cl ev w
    | MsgSubs p => run_subs p w
    | MsgQuit => run_quit w
    end
  else Blocked.

(** *** [replay] *)

(** The events a replay goroutine ranges over:
    [repo.Replay(sub.channel, sub.lastEventId)]. *)
Definition replay_events (repo : Repository) (s : subscription) : list Event :=
  Replay repo (channel s) (lastEventId s).


(** One iteration of the loop of goroutine [i]: [sub.out <- ev] for the
    next event.  A goroutine that does not exist or has returned does
    nothing further. *)
Definition replay_send (i : nat) (w : world) : outcome world :=
  match tasks w !! i with
  | None => Blocked
  | Some t =>
      s ←! deref (heap w) (t_sub t);
      match replay_events (t_repo t) s !! t_sent t with
      | None => Blocked
      | Some ev =>
          cs ←! chan_send (handlers w) (Replayed i) ev (out s) (chans w);
          Ok {| heap := heap w; chans := cs; subs := subs w; repos := repos w;
                tasks := <[i := {| t_repo := t_repo t; t_sub := t_sub t;
                                   t_sent := S (t_sent t) |}]> (tasks w);
                running := running w; handlers := handlers w |}
      end
  end.

(** *** [Handler] *)

(** [sub := &subscription{channel, lastEventId, out: make(chan Event)}]:
    a new struct with a new, open, empty channel, from which its handler
    does not receive yet. *)
Definition new_sub (c lid : string) (w : world) : outcome world :=
  let p := fresh (dom (heap w)) in
  let o := fresh (dom (chans w)) in
  Ok {| heap := <[p := {| channel := c; lastEventId := lid; out := o |}]> (heap w);
        chans := <[o := {| closed := false; sent := [] |}]> (chans w);
        subs := subs w; repos := repos w; tasks := tasks w;
        running := running w;
        handlers := <[o := AtStart]> (handlers w) |}.

(** The handler of the subscription at [p], which is at [now], moves on
    to [next]. *)
Definition handler_moves (now next : handler_state) (p : ptr) (w : world)
    : outcome world :=
  match heap w !! p with
  | None => Blocked
  | Some s =>
      if decide (handlers w !! out s = Some now)
      then Ok {| heap := heap w; chans := chans w; subs := subs w;
                 repos := repos w; tasks := tasks w; running := running w;
                 handlers := <[out s := next]> (handlers w) |}
      else Blocked
  end.

(** The handler reaches the select of its loop.  It is past
    [srv.subs <- sub], so [run] has received its subscription and holds
    it in the set of its channel. *)
Definition enter_loop (p : ptr) (w : world) : outcome world :=
  match heap w !! p with
  | None => Blocked
  | Some s =>
      if decide (p ∈ default ∅ (subs w !! channel s))
      then handler_moves AtStart InLoop p w
      else Blocked
  end.

(** The handler leaves its loop: it got the close notification, found its
    channel closed or failed to encode.  It never receives again. *)
Definition leave_loop (p : ptr) (w : world) : outcome world :=
  handler_moves InLoop Left p w.

(** *** Interleavings *)

Inductive action :=
  | NewSub (c lid : string)   (* a Handler builds its subscription *)
  | Recv (m : message)        (* run receives m and handles it *)
  | ReplaySend (i : nat)      (* replay goroutine i sends its next event *)
  | Enter (p : ptr)           (* the Handler of p reaches its select *)
  | Leave (p : ptr).          (* the Handler of p leaves its loop *)

Definition step (a : action) (w : world) : outcome world :=
  match a with
  | NewSub c lid => new_sub c lid w
  | Recv m => run m w
  | ReplaySend i => replay_send i w
  | Enter p => enter_loop p w
  | Leave p => leave_loop p w
  end.

(** The methods of [Server] that hand a message to [run]. *)

(** [func (srv *Server) Register(channel, repo)] *)
Definition Register (c : string) (repo : Repository) : action :=
  Recv (MsgRegistrations c repo).

(** [func (srv *Server) Publish(channels, ev)] *)
Definition Publish (cl : list string) (ev : Event) : action :=
  Recv (MsgPub cl ev).

(** [func (srv *Server) Close()] *)
Definition Close : action := Recv MsgQuit.

(** [srv.subs <- sub] and [srv.unregister <- sub] in [Handler]. *)
Definition Subscribe (p : ptr) : action := Recv (MsgSubs p).
Definition Unsubscribe (p : ptr) : action := Recv (MsgUnregister p).

Definition exec (tr : list action) (w : world) : outcome world :=
  foldM step tr w.

(** *** The rest of [Handler] *)

(** [h.Set(key, value)] on an [http.Header]: the key gets this one value.
    The keys [Handler] sets are written in their canonical form. *)
Definition header_set (k v : string) (h : gmap string (list string))
    : gmap string (list string) :=
  <[k := [v]]> h.

(** What [Handler] uses of its [http.ResponseWriter]: the header map and
    whether the two type assertions on it succeed. *)
Record writer := Writer {
  header : gmap string (list string);
  is_flusher : bool;          (* w.(http.Flusher) *)
  is_close_notifier : bool;   (* w.(http.CloseNotifier) *)
}.

(** What one turn of the select in the loop of [Handler] gets. *)
Inductive selected :=
  | CloseNotified                        (* <-notifier.CloseNotify() *)
  | OutClosed                            (* ev, ok := <-sub.out, ok false *)
  | OutEvent (ev : Event) (err : bool).  (* ok true; err: Encode failed *)

(** What [Handler] does, in program order.  The encoder made by
    [newEncoder] is declared outside server.go: of [enc.Encode(ev)] only
    the call and whether it returned an error are kept.  A send to [run]
    that finds nobody receiving keeps the handler from going further; that
    is seen when the effects are run against a [world]. *)
Inductive effect :=
  | SetHeader (k v : string)          (* h.Set(k, v) *)
  | Do (a : action)                   (* builds its subscription, sends it
                                         to [run], reaches or leaves its
                                         select *)
  | Flush                             (* flusher.Flush() *)
  | Encode (ev : Event) (err : bool)  (* enc.Encode(ev) and what it returned *)
  | LogPrintln.                       (* log.Println(err) *)

(** How far [Handler] got on the select results it was given, [run]
    having received what the handler sent it on the way. *)
Inductive ending :=
  | Returned      (* the handler returned *)
  | Panicked      (* a type assertion failed *)
  | Selecting     (* it waits in the select for more *)
  | Unregistering (after : list effect).
                  (* it is in [srv.unregister <- sub]: it waits until [run]
                     receives that, then does [after] and returns *)

(** [for { select { ... } }] of [Handler], for the subscription at [p], up
    to a return or to the send on [srv.unregister]. *)
Fixpoint handler_loop (p : ptr) (ins : list selected) : list effect * ending :=
  match ins with
  | [] => ([], Selecting)
  | CloseNotified :: _ => ([Do (Leave p)], Unregistering [])
  | OutClosed :: _ => ([Do (Leave p)], Returned)
  | OutEvent ev true :: _ =>
      ([Encode ev true; Do (Leave p)], Unregistering [LogPrintln])
  | OutEvent ev false :: ins' =>
      let r := handler_loop p ins' in
      (Encode ev false :: Flush :: r.1, r.2)
  end.


(** What [Handler] does before it looks at its writer: it sets the
    headers, builds its subscription and sends it on [srv.subs]. *)
Definition handler_pre (AllowCORS : bool) (c lid : string) (p : ptr)
    : list effect :=
  [ SetHeader "Content-Type" "text/event-stream; charset=utf-8";
    SetHeader "Cache-Control" "no-cache, no-store, must-revalidate";
    SetHeader "Connection" "keep-alive" ]
  ++ (if AllowCORS then [SetHeader "Access-Control-Allow-Origin" "*"] else [])
  ++ [ Do (NewSub c lid); Do (Subscribe p) ].

(** The function returned by [srv.Handler(channel)], called with the
    writer [w] and a request whose [Header.Get("Last-Event-ID")] is [lid]
    (the empty string when the request has no such header).  [p] is the
    address of the subscription it builds; [ins] is what its select gets.
    After the first flush and [newEncoder] it reaches its select. *)
Definition Handler (AllowCORS : bool) (c : string) (w : writer) (lid : string)
    (p : ptr) (ins : list selected) : list effect * ending :=
  let pre := handler_pre AllowCORS c lid p in
  if is_flusher w then
    if is_close_notifier w then
      let r := handler_loop p ins in
      (pre ++ Flush :: Do (Enter p) :: r.1, r.2)
    else (pre, Panicked)
  else (pre, Panicked).

(** The header map after the effects. *)
Definition headers_after (es : list effect) (h : gmap string (list string))
    : gmap string (list string) :=
  foldl (λ h e, match e with SetHeader k v => header_set k v h | _ => h end) h es.

(** What the handler asks of the server, in order. *)
Definition server_actions (es : list effect) : list action :=
  omap (λ e, match e with Do a => Some a | _ => None end) es.

(** The events the handler encoded without error, in order. *)
Definition written (es : list effect) : list Event :=
  omap (λ e, match e with Encode ev false => Some ev | _ => None end) es.

(** The number of flushes. *)
Definition is_flush (e : effect) : bool :=
  match e with Flush => true | _ => false end.

Definition flushes (es : list effect) : nat :=
  length (filter (λ e, is_flush e = true) es).

(** Right after every event encoded without error comes a flush. *)
Definition flushed_after_each (es : list effect) : Prop :=
  ∀ es1 ev es2, es = es1 ++ Encode ev false :: es2 → ∃ es3, es2 = Flush :: es3.

(** The events at the front of the select results that arrive and encode
    without error, and the first result after them, if any. *)
Fixpoint good_prefix (ins : list selected) : list Event :=
  match ins with
  | OutEvent ev false :: ins' => ev :: good_prefix ins'
  | _ => []
  end.


(** *** Observations used in the statements *)

(** The events goroutine [i] has put on a channel, in the order sent. *)
Definition replayed (i : nat) (l : list (origin * Event)) : list Event :=
  omap (λ oe, if decide (oe.1 = Replayed i) then Some oe.2 else None) l.



(** How many subscriptions of the list [l] have [c] as their path. *)
Definition hits (h : gmap ptr subscription) (c : chan_id) (l : list ptr) : nat :=
  length (filter (λ p, out <$> h !! p = Some c) l).

(** The subscriptions [run] visits when it ranges over the whole table. *)
Definition all_subs (sb : gmap string (gset ptr)) : list ptr :=
  mjoin ((λ e, elements e.2) <$> map_to_list sb).

(** The number of times channel [c] is named in a Publish. *)
Definition named (c : string) (cl : list string) : nat :=
  length (filter (λ c', c' = c) cl).

(** The subscriptions a Publish to the channels [cl] visits. *)
Definition pub_targets (sb : gmap string (gset ptr)) (cl : list string) : list ptr :=
  mjoin ((λ c, elements (default ∅ (sb !! c))) <$> cl).

(** A channel state after [n] further sends of the same entry. *)
Definition pushed (n : nat) (x : origin * Event) (st : chan) : chan :=
  {| closed := closed st; sent := sent st ++ replicate n x |}.

(** A channel state after it was closed (if [b]) or left alone. *)
Definition shut (b : bool) (st : chan) : chan :=
  {| closed := closed st || b; sent := sent st |}.

(** Every path that was there is still there, holds what it held as the
    beginning of what it holds now, and is closed if it was. *)
Definition only_appends (cs cs' : gmap chan_id chan) : Prop :=
  ∀ c st, cs !! c = Some st →
    ∃ st', cs' !! c = Some st' ∧ sent st `prefix_of` sent st' ∧
           (closed st = true → closed st' = true).

(** The Subscribes of [p] in a trace. *)
Definition is_subscribe (p : ptr) (a : action) : bool :=
  match a with
  | Recv (MsgSubs q) => bool_decide (p = q)
  | _ => false
  end.

Definition subscribes_of (p : ptr) (tr : list action) : nat :=
  length (filter (λ a, is_subscribe p a = true) tr).

(** The replay goroutines started for [p]. *)
Definition replays_of (p : ptr) (ts : list task) : nat :=
  length (filter (λ t, t_sub t = p) ts).

(** Every replay goroutine belongs to a subscription with a last id. *)
Definition tasks_have_id (ts : list task) (h : gmap ptr subscription) : Prop :=
  ∀ i t s, ts !! i = Some t → h !! t_sub t = Some s →
           lastEventId s ≠ ""%string.

(** The events the [run] loop has put on a path, in the order sent. *)
Definition live (l : list (origin * Event)) : list Event :=
  omap (λ oe, match oe.1 with Live => Some oe.2 | Replayed _ => None end) l.

(** Whether [p] is subscribed after step [a], given whether it was before:
    the trace's own account of Subscribe and Unsubscribe. *)
Definition next_member (p : ptr) (b : bool) (a : action) : bool :=
  match a with
  | Recv (MsgSubs q) => if decide (q = p) then true else b
  | Recv (MsgUnregister q) => if decide (q = p) then false else b
  | _ => b
  end.

Definition member_after (p : ptr) (b : bool) (tr : list action) : bool :=
  foldl (next_member p) b tr.

(** What step [a] publishes to channel [c]. *)
Definition contribution (c : string) (a : action) : list Event :=
  match a with
  | Recv (MsgPub cl ev) => replicate (named c cl) ev
  | _ => []
  end.

(** What the trace publishes to channel [c] while [p] is subscribed,
    [b] telling whether it is at the start. *)
Fixpoint published_to (p : ptr) (c : string) (b : bool) (tr : list action)
    : list Event :=
  match tr with
  | [] => []
  | a :: tr' =>
      (if b then contribution c a else [])
      ++ published_to p c (next_member p b a) tr'
  end.

(** The repository the trace registers last for channel [c], [r0] being
    the one at the start. *)
Definition last_registered (c : string) (r0 : option Repository)
    (tr : list action) : option Repository :=
  foldl (λ r a, match a with
                | Recv (MsgRegistrations c' repo) =>
                    if decide (c' = c) then Some repo else r
                | _ => r
                end) r0 tr.

(** No path that is closed after was open before. *)
Definition no_new_close (cs cs' : gmap chan_id chan) : Prop :=
  ∀ c st', cs' !! c = Some st' → closed st' = true →
           ∃ st, cs !! c = Some st ∧ closed st = true.

(** What goroutine [i] should have put on channel [c] so far. *)
Definition expected (w : world) (i : nat) (c : chan_id) : list Event :=
  match tasks w !! i with
  | None => []
  | Some t =>
      match heap w !! t_sub t with
      | None => []
      | Some s =>
          if decide (out s = c)
          then take (t_sent t) (replay_events (t_repo t) s)
          else []
      end
  end.

(** The invariant of the states the server goes through. *)
Record inv (w : world) : Prop := {
  inv_subs : ∀ c X p, subs w !! c = Some X → p ∈ X →
    ∃ s, heap w !! p = Some s ∧ channel s = c;
  inv_alloc : ∀ p s, heap w !! p = Some s → is_Some (chans w !! out s);
  inv_fresh : ∀ p q s t, heap w !! p = Some s → heap w !! q = Some t →
    out s = out t → p = q;
  inv_open : running w = true →
    ∀ c st, chans w !! c = Some st → closed st = false;
  inv_task : ∀ i t, tasks w !! i = Some t → is_Some (heap w !! t_sub t);
  inv_log : ∀ c st i, chans w !! c = Some st →
    replayed i (sent st) = expected w i c;
}.

End eventsource.

Arguments Repository : clear implicits.
Arguments chan : clear implicits.
Arguments message : clear implicits.
Arguments task : clear implicits.
Arguments world : clear implicits.
Arguments action : clear implicits.
Arguments selected : clear implicits.
Arguments effect : clear implicits.
Arguments ending : clear implicits.

(** ** A concrete server *)

(** A repository with the events 6, 7, 8 after id 5 on channel news. *)
Definition history : Repository string :=
  {| Replay := λ c lid,
       if (String.eqb c "news" && String.eqb lid "5")%bool
       then ["6"; "7"; "8"]%string else [] |}.

(** Another one, with other events. *)
Definition history' : Repository string :=
  {| Replay := λ _ _, ["a"; "b"]%string |}.

(** A registration, four handlers, three subscribes.  Subscription 1 is on
    news and asks for a replay, 2 is on sports, 3 is on news without an id;
    subscription 4, on news with an id, is built but not subscribed. *)
Definition to_subscribed : list (action string) :=
  [ Register "news" history;
    NewSub "news" "5"; NewSub "sports" ""; NewSub "news" ""; NewSub "news" "5";
    Subscribe 1%positive; Subscribe 2%positive; Subscribe 3%positive ].

Definition subscribed : world string :=
  Eval vm_compute in
    match exec to_subscribed NewServer with Ok w => w | _ => NewServer end.

(** The same server after Shutdown. *)
Definition stopped : world string :=
  Eval vm_compute in
    match step Close subscribed with Ok w => w | _ => NewServer end.

(** The same server after subscription 1 has unsubscribed. *)
Definition unsubscribed : world string :=
  Eval vm_compute in
    match step (Unsubscribe 1%positive) subscribed with
    | Ok w => w
    | _ => NewServer
    end.

(** The same server after the three subscribed handlers have reached
    their select. *)
Definition to_listening : list (action string) :=
  to_subscribed ++ [ Enter 1%positive; Enter 2%positive; Enter 3%positive ].

Definition listening : world string :=
  Eval vm_compute in
    match exec to_listening NewServer with Ok w => w | _ => NewServer end.

(** That server after a Publish of 9 to news. *)
Definition published : world string :=
  Eval vm_compute in
    match step (Publish ["news"%string] "9"%string) listening with
    | Ok w => w
    | _ => NewServer
    end.

(** The listening server after the replay goroutine of subscription 1 has
    sent its first event and the handler of subscription 1 has then left
    its loop: it got the close notification and [run] has not received
    its unregister yet. *)
Definition to_departed : list (action string) :=
  to_listening ++ [ ReplaySend 0; Leave 1%positive ].

Definition departed : world string :=
  Eval vm_compute in
    match exec to_departed NewServer with Ok w => w | _ => NewServer end.

(** The listening server after subscription 1 has unsubscribed, and
    after a Publish of 9 to news has followed. *)
Definition listening_without_1 : world string :=
  Eval vm_compute in
    match step (Unsubscribe 1%positive) listening with
    | Ok w => w
    | _ => NewServer
    end.

Definition published_without_1 : world string :=
  Eval vm_compute in
    match step (Publish ["news"%string] "9"%string) listening_without_1 with
    | Ok w => w
    | _ => NewServer
    end.

(** The departed handler's unregister is received, then a Publish of 9 to
    news. *)
Definition after_departure : world string :=
  Eval vm_compute in
    match exec [Unsubscribe 1%positive; Publish ["news"%string] "9"%string]
            departed with
    | Ok w => w
    | _ => NewServer
    end.

(** The stopped server after one more handler has built its subscription. *)
Definition after_stop : world string :=
  Eval vm_compute in
    match step (NewSub "news" "") stopped with Ok w => w | _ => NewServer end.

(** A writer that can flush and notify, and one that can flush only. *)
Definition full_writer : writer :=
  {| header := ∅; is_flusher := true; is_close_notifier := true |}.

Definition flush_only_writer : writer :=
  {| header := ∅; is_flusher := true; is_close_notifier := false |}.

(** A connection that gets one event and then loses its client. *)
Definition one_event_then_gone : list (selected string) :=
  [ OutEvent "6"%string false; CloseNotified ].

(** * Facts *)

Section outcome_facts.
Context {A St : Type}.
Implicit Types (f : A → St → outcome St).

Lemma foldM_app f l1 l2 s :
  foldM f (l1 ++ l2) s = (s' ←! foldM f l1 s; foldM f l2 s').
Proof.
  revert s. induction l1 as [|a l1 IH]; intros s; simpl; [done|].
  destruct (f a s); simpl; auto.
Qed.

(** A property kept by every iteration is kept by the loop. *)
Lemma foldM_preserves (R : St → St → Prop) f l s s' :
  (∀ x, R x x) → (∀ x y z, R x y → R y z → R x z) →
  (∀ a x y, a ∈ l → f a x = Ok y → R x y) →
  foldM f l s = Ok s' → R s s'.
Proof.
  intros Hrefl Htrans. revert s.
  induction l as [|a l IH]; intros s Hf H; simpl in H.
  - by simplify_eq.
  - destruct (f a s) as [s1| |] eqn:E; simpl in H; try done.
    eapply Htrans; [eapply Hf; [left|done]|].
    apply IH; [|done]. intros; eapply Hf; [by right|done].
Qed.
End outcome_facts.

(** A loop nested in a loop is one loop over the concatenation. *)
Lemma foldM_concat {A B St} (g : B → St → outcome St) (k : A → list B) l s :
  foldM (λ a, foldM g (k a)) l s = foldM g (mjoin (k <$> l)) s.
Proof.
  revert s. induction l as [|a l IH]; intros s; [done|].
  rewrite fmap_cons. cbn [mjoin list_join foldM]. rewrite foldM_app.
  destruct (foldM g (k a) s); simpl; auto.
Qed.

Section chan_facts.
Context {Event : Type}.
Implicit Types (cs : gmap chan_id (chan Event)) (h : gmap ptr subscription).
Implicit Types (ev : Event) (st : chan Event) (L : list ptr).
Implicit Types (hs : gmap chan_id handler_state).

Lemma chan_send_Ok hs o ev c cs cs' :
  chan_send hs o ev c cs = Ok cs' →
  ∃ st, cs !! c = Some st ∧ closed st = false ∧
        cs' = <[c := {| closed := false; sent := sent st ++ [(o, ev)] |}]> cs.
Proof.
  unfold chan_send. destruct (cs !! c) as [st|] eqn:E; [|done].
  destruct (closed st) eqn:Ec; [done|].
  destruct (decide (hs !! c = Some InLoop)); [|done]. intros [= <-]. eauto.
Qed.

(** A send completes only on a channel whose handler is receiving. *)
Lemma chan_send_receiving hs o ev c cs cs' :
  chan_send hs o ev c cs = Ok cs' → hs !! c = Some InLoop.
Proof.
  unfold chan_send. destruct (cs !! c) as [st|] eqn:E; [|done].
  destruct (closed st) eqn:Ec; [done|].
  by destruct (decide (hs !! c = Some InLoop)).
Qed.

Lemma chan_send_open hs o ev c cs st :
  cs !! c = Some st → closed st = false → hs !! c = Some InLoop →
  chan_send hs o ev c cs
  = Ok (<[c := {| closed := false; sent := sent st ++ [(o, ev)] |}]> cs).
Proof.
  intros E Ec Hr. unfold chan_send. rewrite E, Ec. by rewrite decide_True.
Qed.

Lemma chan_send_closed hs o ev c cs st :
  cs !! c = Some st → closed st = true → chan_send hs o ev c cs = Panic.
Proof. intros E Ec. unfold chan_send. by rewrite E, Ec. Qed.

(** On an open channel whose handler is not receiving, a send waits. *)
Lemma chan_send_waits hs o ev c cs st :
  cs !! c = Some st → closed st = false → hs !! c ≠ Some InLoop →
  chan_send hs o ev c cs = Blocked.
Proof.
  intros E Ec Hr. unfold chan_send. rewrite E, Ec. by rewrite decide_False.
Qed.

Lemma chan_close_open c cs st :
  cs !! c = Some st → closed st = false →
  chan_close c cs = Ok (<[c := {| closed := true; sent := sent st |}]> cs).
Proof. intros E Ec. unfold chan_close. by rewrite E, Ec. Qed.

Lemma hits_nil h c : hits h c [] = 0.
Proof. done. Qed.

Lemma hits_cons h c p L :
  hits h c (p :: L)
  = (if decide (out <$> h !! p = Some c) then 1 else 0) + hits h c L.
Proof. unfold hits. rewrite filter_cons. by case_decide. Qed.

Lemma hits_app h c L1 L2 : hits h c (L1 ++ L2) = hits h c L1 + hits h c L2.
Proof. unfold hits. by rewrite filter_app, length_app. Qed.

Lemma hits_zero h c L :
  (∀ p s, p ∈ L → h !! p = Some s → out s ≠ c) → hits h c L = 0.
Proof.
  induction L as [|p L IH]; intros H; [done|].
  rewrite hits_cons, IH by (intros; eapply H; [by right|done]).
  case_decide as E; [|done].
  destruct (h !! p) as [s|] eqn:Hp; simplify_eq/=.
  exfalso. by eapply (H p s); [left|..].
Qed.

(** Sends on two different channels can be swapped. *)
Lemma chan_send_commute hs o1 ev1 c1 o2 ev2 c2 cs cs1 cs12 :
  c1 ≠ c2 →
  chan_send hs o1 ev1 c1 cs = Ok cs1 → chan_send hs o2 ev2 c2 cs1 = Ok cs12 →
  ∃ cs2, chan_send hs o2 ev2 c2 cs = Ok cs2 ∧
         chan_send hs o1 ev1 c1 cs2 = Ok cs12.
Proof.
  intros Hne S1 S2.
  pose proof (chan_send_receiving _ _ _ _ _ _ S1) as R1.
  pose proof (chan_send_receiving _ _ _ _ _ _ S2) as R2.
  apply chan_send_Ok in S1 as (st1 & H1 & Ho1 & ->).
  apply chan_send_Ok in S2 as (st2 & H2 & Ho2 & ->).
  rewrite lookup_insert_ne in H2 by done.
  eexists. split; [by apply chan_send_open|].
  rewrite (chan_send_open _ _ _ _ _ st1); [|by rewrite lookup_insert_ne|done..].
  f_equal. by apply insert_insert_ne.
Qed.

Lemma pub_one_open hs h ev p cs s st :
  h !! p = Some s → cs !! out s = Some st → closed st = false →
  hs !! out s = Some InLoop →
  pub_one hs h ev p cs
  = Ok (<[out s := {| closed := false; sent := sent st ++ [(Live, ev)] |}]> cs).
Proof.
  intros Hp Hst Hc Hr. unfold pub_one, deref. rewrite Hp. simpl.
  by apply chan_send_open.
Qed.

Lemma pub_one_waits hs h ev p cs s st :
  h !! p = Some s → cs !! out s = Some st → closed st = false →
  hs !! out s ≠ Some InLoop →
  pub_one hs h ev p cs = Blocked.
Proof.
  intros Hp Hst Hc Hr. unfold pub_one, deref. rewrite Hp. simpl.
  by eapply chan_send_waits.
Qed.

(** What one completed send of a Publish has done. *)
Lemma pub_one_Ok hs h ev p cs cs' :
  pub_one hs h ev p cs = Ok cs' →
  ∃ s st, h !! p = Some s ∧ cs !! out s = Some st ∧ closed st = false ∧
          hs !! out s = Some InLoop ∧
          cs' = <[out s := {| closed := false;
                             sent := sent st ++ [(Live, ev)] |}]> cs.
Proof.
  unfold pub_one, deref. destruct (h !! p) as [s|] eqn:Hp; [|done]. simpl.
  intros Hs. pose proof (chan_send_receiving _ _ _ _ _ _ Hs).
  apply chan_send_Ok in Hs as (st & ? & ? & ->). by exists s, st.
Qed.

Lemma quit_one_open h p cs s st :
  h !! p = Some s → cs !! out s = Some st → closed st = false →
  quit_one h p cs = Ok (<[out s := {| closed := true; sent := sent st |}]> cs).
Proof.
  intros Hp Hst Hc. unfold quit_one, deref. rewrite Hp. simpl.
  by apply chan_close_open.
Qed.

(** The inner loops of a Publish that completed: every visit has put the
    event on the path of the subscription visited, whose handler was
    receiving. *)
Lemma pub_list_Ok hs h ev L cs cs' :
  foldM (pub_one hs h ev) L cs = Ok cs' →
  (∀ c, cs' !! c = pushed (hits h c L) (Live, ev) <$> cs !! c) ∧
  (∀ p, p ∈ L → ∃ s st, h !! p = Some s ∧ cs !! out s = Some st ∧
                        closed st = false ∧ hs !! out s = Some InLoop).
Proof.
  revert cs. induction L as [|p L IH]; intros cs Hf.
  - injection Hf as <-. split; [|by intros p ?%elem_of_nil].
    intros c. rewrite hits_nil.
    destruct (cs !! c) as [[]|]; simpl; [|done].
    unfold pushed; simpl. by rewrite app_nil_r.
  - cbn [foldM] in Hf.
    destruct (pub_one hs h ev p cs) as [cs1| |] eqn:H1; [|done..].
    cbn [obind] in Hf.
    apply pub_one_Ok in H1 as (s & st & Hp & Hst & Hc & Hr & ->).
    destruct (IH _ Hf) as [Hcs' HL]. split.
    + intros c. rewrite Hcs', hits_cons, Hp. rewrite lookup_insert. simpl.
      destruct (decide (out s = c)) as [<-|Hne].
      * rewrite decide_True by done. rewrite Hst. simpl. f_equal.
        unfold pushed; simpl. rewrite Hc. by rewrite <- app_assoc.
      * rewrite decide_False by congruence. done.
    + intros q [->|Hq]%elem_of_cons; [by exists s, st|].
      destruct (HL q Hq) as (t & st' & Hq' & Hst' & Hc' & Hr').
      rewrite lookup_insert in Hst'.
      destruct (decide (out s = out t)) as [E|Hne].
      * exists t, st. rewrite <- E. by rewrite <- E in Hr'.
      * by exists t, st'.
Qed.

(** The inner loops of a Publish on open channels whose handlers are all
    receiving. *)
Lemma pub_list_ok hs h ev L cs :
  (∀ c st, cs !! c = Some st → closed st = false) →
  (∀ p, p ∈ L → ∃ s, h !! p = Some s ∧ is_Some (cs !! out s) ∧
                     hs !! out s = Some InLoop) →
  ∃ cs', foldM (pub_one hs h ev) L cs = Ok cs' ∧
         ∀ c, cs' !! c = pushed (hits h c L) (Live, ev) <$> cs !! c.
Proof.
  revert cs. induction L as [|p L IH]; intros cs Hopen HL.
  - exists cs. split; [done|]. intros c. rewrite hits_nil.
    destruct (cs !! c) as [[]|]; simpl; [|done].
    unfold pushed; simpl. by rewrite app_nil_r.
  - destruct (HL p) as (s & Hp & [st Hst] & Hr); [left|].
    cbn [foldM]. rewrite (pub_one_open _ _ _ _ _ s st) by eauto. cbn [obind].
    set (cs1 := <[out s := _]> cs).
    destruct (IH cs1) as (cs' & Hf & Hcs').
    + intros c st'. subst cs1. rewrite lookup_insert.
      case_decide; [by intros [= <-]|]. apply Hopen.
    + intros q Hq. destruct (HL q) as (t & Hq' & Hs & Hr'); [by right|].
      exists t. split_and!; [done| |done]. subst cs1. rewrite lookup_insert.
      case_decide; eauto.
    + exists cs'. split; [done|]. intros c. rewrite Hcs', hits_cons, Hp.
      subst cs1. rewrite lookup_insert. simpl.
      destruct (decide (out s = c)) as [<-|Hne].
      * rewrite decide_True by done. rewrite Hst. simpl. f_equal.
        unfold pushed; simpl. rewrite (Hopen _ _ Hst).
        by rewrite <- app_assoc.
      * rewrite decide_False by congruence. done.
Qed.

(** ... and when the handler of one of them is not: the loop reaches it
    and waits there. *)
Lemma pub_list_waits hs h ev L cs p s :
  (∀ c st, cs !! c = Some st → closed st = false) →
  (∀ q, q ∈ L → ∃ t, h !! q = Some t ∧ is_Some (cs !! out t)) →
  p ∈ L → h !! p = Some s → hs !! out s ≠ Some InLoop →
  foldM (pub_one hs h ev) L cs = Blocked.
Proof.
  revert cs. induction L as [|q L IH]; intros cs Hopen HL Hin Hp Hr.
  - by apply elem_of_nil in Hin.
  - destruct (HL q) as (t & Hq & [st Hst]); [left|]. cbn [foldM].
    destruct (decide (hs !! out t = Some InLoop)) as [Ht|Ht].
    + rewrite (pub_one_open _ _ _ _ _ t st) by eauto. cbn [obind].
      apply elem_of_cons in Hin as [->|Hin]; [congruence|].
      apply IH; [| |done..].
      * intros c st'. rewrite lookup_insert.
        case_decide; [by intros [= <-]|]. apply Hopen.
      * intros q' Hq'. destruct (HL q') as (t' & ? & ?); [by right|].
        exists t'. split; [done|]. rewrite lookup_insert. case_decide; eauto.
    + by rewrite (pub_one_waits _ _ _ _ _ t st) by eauto.
Qed.

(** The inner loops of Shutdown on distinct open channels. *)
Lemma quit_list_ok h L cs :
  NoDup L →
  (∀ p, p ∈ L → ∃ s st, h !! p = Some s ∧ cs !! out s = Some st ∧
                        closed st = false) →
  (∀ p q s t, p ∈ L → q ∈ L → h !! p = Some s → h !! q = Some t →
              out s = out t → p = q) →
  ∃ cs', foldM (quit_one h) L cs = Ok cs' ∧
         ∀ c, cs' !! c = shut (bool_decide (0 < hits h c L)) <$> cs !! c.
Proof.
  revert cs. induction L as [|p L IH]; intros cs Hnd HL Hinj.
  - exists cs. split; [done|]. intros c. rewrite hits_nil.
    destruct (cs !! c) as [[b l]|]; simpl; [|done].
    unfold shut; simpl. by rewrite orb_false_r.
  - apply NoDup_cons in Hnd as [Hp_notin Hnd].
    destruct (HL p) as (s & st & Hp & Hst & Hc); [left|].
    cbn [foldM]. rewrite (quit_one_open _ _ _ s st) by done. cbn [obind].
    set (cs1 := <[out s := _]> cs).
    assert (Hother : ∀ q t, q ∈ L → h !! q = Some t → out t ≠ out s).
    { intros q t Hq Hq' Ho. apply Hp_notin.
      rewrite (Hinj p q s t); [done|left|by right|done..]. }
    destruct (IH cs1) as (cs' & Hf & Hcs'); [done|..].
    + intros q Hq. destruct (HL q) as (t & st' & Hq' & Hst' & Hc'); [by right|].
      exists t, st'. split_and!; [done| |done]. subst cs1.
      rewrite lookup_insert_ne; [done|]. intros E. by eapply Hother.
    + intros q q' t t' ??. apply Hinj; by right.
    + exists cs'. split; [done|]. intros c. rewrite Hcs', hits_cons, Hp.
      subst cs1. rewrite lookup_insert. simpl.
      destruct (decide (out s = c)) as [<-|Hne].
      * rewrite decide_True by done. rewrite Hst. simpl. f_equal.
        unfold shut; simpl. by rewrite Hc.
      * rewrite decide_False by congruence. done.
Qed.

Lemma hits_Permutation h c L L' : L ≡ₚ L' → hits h c L = hits h c L'.
Proof. intros HL. unfold hits. by rewrite HL. Qed.

(** The order in which Go ranges over a subscriber set does not matter:
    on open channels every order of the same visits gives the same
    channels for a Publish ... *)
Lemma pub_list_order hs h ev L L' cs :
  L ≡ₚ L' →
  (∀ c st, cs !! c = Some st → closed st = false) →
  (∀ p, p ∈ L → ∃ s, h !! p = Some s ∧ is_Some (cs !! out s)) →
  foldM (pub_one hs h ev) L' cs = foldM (pub_one hs h ev) L cs.
Proof.
  intros HL Hopen Hin.
  assert (Hin' : ∀ p, p ∈ L' → ∃ s, h !! p = Some s ∧ is_Some (cs !! out s)).
  { intros p Hp. apply Hin. by rewrite HL. }
  destruct (decide (Forall (λ p, (h !! p ≫= λ s, hs !! out s) = Some InLoop) L))
    as [Hall|Hex].
  - rewrite Forall_forall in Hall.
    destruct (pub_list_ok hs h ev L cs Hopen) as (cs1 & -> & H1).
    { intros p Hp. destruct (Hin p Hp) as (s & Hs & ?).
      specialize (Hall p Hp). rewrite Hs in Hall. by exists s. }
    destruct (pub_list_ok hs h ev L' cs Hopen) as (cs2 & -> & H2).
    { intros p Hp. destruct (Hin' p Hp) as (s & Hs & ?).
      assert (Hp' : p ∈ L) by by rewrite HL.
      specialize (Hall p Hp'). rewrite Hs in Hall. by exists s. }
    f_equal. apply map_eq. intros c.
    by rewrite H1, H2, (hits_Permutation h c L L').
  - apply not_Forall_Exists in Hex; [|apply _].
    apply Exists_exists in Hex as (p & Hp & Hnr).
    destruct (Hin p Hp) as (s & Hs & ?).
    unfold compose in Hnr. rewrite Hs in Hnr. simpl in Hnr.
    rewrite (pub_list_waits hs h ev L cs p s) by done.
    apply (pub_list_waits hs h ev L' cs p s); try done. by rewrite <- HL.
Qed.

(** ... and for Shutdown. *)
Lemma quit_list_order h L L' cs :
  L ≡ₚ L' → NoDup L →
  (∀ p, p ∈ L → ∃ s st, h !! p = Some s ∧ cs !! out s = Some st ∧
                        closed st = false) →
  (∀ p q s t, p ∈ L → q ∈ L → h !! p = Some s → h !! q = Some t →
              out s = out t → p = q) →
  foldM (quit_one h) L' cs = foldM (quit_one h) L cs.
Proof.
  intros HL Hnd Hin Hinj.
  destruct (quit_list_ok h L cs Hnd Hin Hinj) as (cs1 & -> & H1).
  destruct (quit_list_ok h L' cs) as (cs2 & -> & H2).
  { by rewrite <- HL. }
  { intros p Hp. apply Hin. by rewrite HL. }
  { intros p q s t Hp Hq. apply Hinj; by rewrite HL. }
  f_equal. apply map_eq. intros c.
  by rewrite H1, H2, (hits_Permutation h c L L').
Qed.
End chan_facts.

Section table_facts.
Implicit Types (sb : gmap string (gset ptr)) (h : gmap ptr subscription).

Lemma elem_of_pub_targets sb cl p :
  p ∈ pub_targets sb cl ↔ ∃ c X, c ∈ cl ∧ sb !! c = Some X ∧ p ∈ X.
Proof.
  unfold pub_targets. rewrite list_elem_of_join. split.
  - intros (l & Hp & Hl). apply list_elem_of_fmap in Hl as (c & -> & Hc).
    apply elem_of_elements in Hp. destruct (sb !! c) as [X|] eqn:E.
    + exists c, X. done.
    + simpl in Hp. set_solver.
  - intros (c & X & Hc & E & Hp). exists (elements X). split.
    + by apply elem_of_elements.
    + apply list_elem_of_fmap. exists c. split; [by rewrite E|done].
Qed.

(** A member of a list without repetition occurs in it once. *)
Lemma count_NoDup (L : list ptr) p :
  NoDup L → p ∈ L → length (filter (λ q, q = p) L) = 1.
Proof.
  intros Hnd. induction Hnd as [|q L Hq Hnd IH]; intros Hin.
  { by apply elem_of_nil in Hin. }
  rewrite filter_cons. apply elem_of_cons in Hin as [<-|Hin].
  - rewrite decide_True by done. simpl. f_equal.
    destruct (filter (λ q, q = p) L) as [|q' l] eqn:E; [done|].
    assert (q' ∈ filter (λ q, q = p) L) as Hq' by (rewrite E; left).
    apply list_elem_of_filter in Hq' as [-> ?]. done.
  - rewrite decide_False; [by apply IH|]. intros ->. done.
Qed.

Lemma pub_targets_cons sb c cl :
  pub_targets sb (c :: cl)
  = elements (default ∅ (sb !! c)) ++ pub_targets sb cl.
Proof. done. Qed.

Lemma elem_of_all_subs sb p :
  p ∈ all_subs sb ↔ ∃ c X, sb !! c = Some X ∧ p ∈ X.
Proof.
  unfold all_subs. rewrite list_elem_of_join. split.
  - intros (l & Hp & Hl). apply list_elem_of_fmap in Hl as ([c X] & -> & Hc).
    apply elem_of_elements in Hp. apply elem_of_map_to_list in Hc.
    exists c, X. done.
  - intros (c & X & E & Hp). exists (elements X). split.
    + by apply elem_of_elements.
    + apply list_elem_of_fmap. exists (c, X). split; [done|].
      by apply elem_of_map_to_list.
Qed.

(** Sets filed under distinct keys that agree with a labelling of their
    members are disjoint, so the concatenation repeats nothing. *)
Lemma NoDup_labelled_concat (lab : ptr → option string)
    (l : list (string * gset ptr)) :
  NoDup l.*1 →
  (∀ c X p, (c, X) ∈ l → p ∈ X → lab p = Some c) →
  NoDup (mjoin ((λ e, elements e.2) <$> l)).
Proof.
  induction l as [|[c X] l IH]; intros Hnd Hlab; [constructor|].
  rewrite fmap_cons in Hnd. apply NoDup_cons in Hnd as [Hc Hnd].
  rewrite fmap_cons. cbn [mjoin list_join]. apply NoDup_app. split_and!.
  - apply NoDup_elements.
  - intros p Hp Hp'. simpl in Hp. apply elem_of_elements in Hp.
    apply list_elem_of_join in Hp' as (l' & Hp' & Hl').
    apply list_elem_of_fmap in Hl' as ([c' X'] & -> & Hin).
    simpl in Hp'. apply elem_of_elements in Hp'.
    assert (lab p = Some c) as E1 by (eapply Hlab; [left|done]).
    assert (lab p = Some c') as E2 by (eapply Hlab; [by right|done]).
    apply Hc. apply list_elem_of_fmap. exists (c', X').
    split; [simpl; congruence|done].
  - apply IH; [done|]. intros c' X' p Hin. apply Hlab. by right.
Qed.

Lemma NoDup_all_subs h sb :
  (∀ c X p, sb !! c = Some X → p ∈ X →
            ∃ s, h !! p = Some s ∧ channel s = c) →
  NoDup (all_subs sb).
Proof.
  intros H. unfold all_subs.
  apply (NoDup_labelled_concat (λ p, channel <$> h !! p)).
  - apply NoDup_fst_map_to_list.
  - intros c X p Hin Hp. apply elem_of_map_to_list in Hin.
    destruct (H c X p) as (s & -> & <-); done.
Qed.
End table_facts.

Section world_facts.
Context {Event : Type}.
Implicit Types (w : world Event) (ev : Event) (st : chan Event).
Implicit Types (l : list (origin * Event)).

(** *** Projections of a log *)

Lemma replayed_app i l1 l2 : replayed i (l1 ++ l2) = replayed i l1 ++ replayed i l2.
Proof. unfold replayed. apply omap_app. Qed.

Lemma replayed_live i n ev : replayed i (replicate n (Live, ev)) = [].
Proof. by induction n as [|n IH]. Qed.

Lemma replayed_same i ev : replayed i [(Replayed i, ev)] = [ev].
Proof. unfold replayed; simpl. by rewrite decide_True. Qed.

Lemma replayed_other i j ev : i ≠ j → replayed i [(Replayed j, ev)] = [].
Proof. intros. unfold replayed; simpl. rewrite decide_False; [done|congruence]. Qed.

Lemma expected_ext w w' i c :
  tasks w' = tasks w → heap w' = heap w → expected w' i c = expected w i c.
Proof. intros Ht Hh. unfold expected. by rewrite Ht, Hh. Qed.

(** *** Publish and Shutdown as one loop *)

Lemma run_pub_loops w cl ev :
  foldM (pub_channel (handlers w) (heap w) (subs w) ev) cl (chans w)
  = foldM (pub_one (handlers w) (heap w) ev) (pub_targets (subs w) cl) (chans w).
Proof.
  apply (foldM_concat (pub_one (handlers w) (heap w) ev)
           (λ c, elements (default ∅ (subs w !! c)))).
Qed.

(** What a Publish that completed has done. *)
Lemma run_pub_ok w cl ev w' :
  run_pub cl ev w = Ok w' →
    heap w' = heap w ∧ subs w' = subs w ∧ repos w' = repos w ∧
    tasks w' = tasks w ∧ running w' = running w ∧
    ∀ c, chans w' !! c
         = pushed (hits (heap w) c (pub_targets (subs w) cl)) (Live, ev)
             <$> chans w !! c.
Proof.
  unfold run_pub. rewrite run_pub_loops.
  destruct (foldM _ _ _) as [cs'| |] eqn:Hf; [|done..].
  cbn [obind]. intros [= <-]. simpl. split_and!; try done.
  by apply (pub_list_Ok _ _ _ _ _ _ Hf).
Qed.

(** It completed because the handler of every subscription it visited
    was receiving; it has changed nothing about the handlers. *)
Lemma run_pub_receiving w cl ev w' :
  run_pub cl ev w = Ok w' →
  handlers w' = handlers w ∧
  ∀ p, p ∈ pub_targets (subs w) cl →
       ∃ s, heap w !! p = Some s ∧ handlers w !! out s = Some InLoop.
Proof.
  unfold run_pub. rewrite run_pub_loops.
  destruct (foldM _ _ _) as [cs'| |] eqn:Hf; [|done..].
  cbn [obind]. intros [= <-]. simpl. split; [done|].
  intros p Hp.
  destruct (proj2 (pub_list_Ok _ _ _ _ _ _ Hf) p Hp) as (s & st & ? & ? & ? & ?).
  by exists s.
Qed.

(** A Publish completes when the handler of every subscription it visits
    is receiving ... *)
Lemma run_pub_completes w cl ev :
  inv w → running w = true →
  (∀ p s, p ∈ pub_targets (subs w) cl → heap w !! p = Some s →
          handlers w !! out s = Some InLoop) →
  ∃ w', run_pub cl ev w = Ok w'.
Proof.
  intros Hinv Hrun Hall. unfold run_pub. rewrite run_pub_loops.
  destruct (pub_list_ok (handlers w) (heap w) ev (pub_targets (subs w) cl)
              (chans w)) as (cs' & -> & Hcs').
  - by apply inv_open.
  - intros p Hp. pose proof Hp as Hp'.
    apply elem_of_pub_targets in Hp as (c & X & _ & HX & Hp).
    destruct (inv_subs w Hinv c X p) as (s & Hs & _); [done..|].
    exists s. split_and!; [done| |by eapply Hall]. by eapply inv_alloc.
  - simpl. by eexists.
Qed.


Lemma run_quit_ok w :
  inv w → running w = true →
  ∃ w', run_quit w = Ok w' ∧
    heap w' = heap w ∧ subs w' = subs w ∧ repos w' = repos w ∧
    tasks w' = tasks w ∧ running w' = false ∧
    ∀ c, chans w' !! c
         = shut (bool_decide (0 < hits (heap w) c (all_subs (subs w))))
             <$> chans w !! c.
Proof.
  intros Hinv Hrun. unfold run_quit.
  assert (foldM (quit_channel (heap w)) (map_to_list (subs w)) (chans w)
          = foldM (quit_one (heap w)) (all_subs (subs w)) (chans w)) as ->.
  { apply (foldM_concat (quit_one (heap w)) (λ e, elements e.2)). }
  destruct (quit_list_ok (heap w) (all_subs (subs w)) (chans w))
    as (cs' & -> & Hcs').
  - eapply NoDup_all_subs, inv_subs, Hinv.
  - intros p Hp. apply elem_of_all_subs in Hp as (c & X & HX & Hp).
    destruct (inv_subs w Hinv c X p) as (s & Hs & _); [done..|].
    destruct (inv_alloc w Hinv p s Hs) as [st Hst].
    exists s, st. split_and!; [done..|]. by eapply inv_open.
  - intros p q s t _ _. by apply inv_fresh.
  - simpl. eexists. split; [done|]. by simpl.
Qed.

(** *** One subscription joins, one leaves *)

Lemma run_subs_ok w p s :
  heap w !! p = Some s →
  ∃ w', run_subs p w = Ok w' ∧
    heap w' = heap w ∧ chans w' = chans w ∧ repos w' = repos w ∧
    running w' = running w ∧
    (∀ c, subs w' !! c
          = if decide (channel s = c)
            then Some ({[p]} ∪ default ∅ (subs w !! c))
            else subs w !! c) ∧
    tasks w'
    = if decide (0 < String.length (lastEventId s)) then
        match repos w !! channel s with
        | Some repo => tasks w ++ [ {| t_repo := repo; t_sub := p; t_sent := 0 |} ]
        | None => tasks w
        end
      else tasks w.
Proof.
  intros Hp. unfold run_subs, deref. rewrite Hp. cbn [obind].
  eexists. split; [done|]. cbn. split_and!; try done.
  intros c. rewrite lookup_insert. case_decide as E; [|].
  - subst c. destruct (subs w !! channel s) as [X|] eqn:HX.
    + by rewrite HX.
    + by rewrite lookup_insert_eq.
  - destruct (subs w !! channel s) as [X|] eqn:HX; [done|].
    by rewrite lookup_insert_ne.
Qed.

Lemma run_unregister_ok w p s :
  heap w !! p = Some s →
  ∃ w', run_unregister p w = Ok w' ∧
    heap w' = heap w ∧ chans w' = chans w ∧ repos w' = repos w ∧
    tasks w' = tasks w ∧ running w' = running w ∧
    (∀ c, subs w' !! c
          = if decide (channel s = c)
            then (λ X, X ∖ {[p]}) <$> subs w !! c
            else subs w !! c).
Proof.
  intros Hp. unfold run_unregister, deref. rewrite Hp. cbn [obind].
  eexists. split; [done|]. cbn. split_and!; try done.
  intros c. destruct (subs w !! channel s) as [X|] eqn:HX.
  - rewrite lookup_insert. case_decide as E; [|done].
    subst c. by rewrite HX.
  - case_decide as E; [|done]. subst c. by rewrite HX.
Qed.

Lemma expected_None w i c : tasks w !! i = None → expected w i c = [].
Proof. intros H. unfold expected. by rewrite H. Qed.

(** *** The invariant is kept by every step *)

Lemma inv_NewServer : inv (NewServer (Event:=Event)).
Proof. constructor; simpl; intros *; try rewrite lookup_empty; done. Qed.

Lemma new_sub_inv c lid w w' : inv w → new_sub c lid w = Ok w' → inv w'.
Proof.
  intros Hinv. unfold new_sub. intros [= <-].
  set (p := fresh (dom (heap w))). set (o := fresh (dom (chans w))).
  assert (Hp : heap w !! p = None) by apply not_elem_of_dom, is_fresh.
  assert (Ho : chans w !! o = None) by apply not_elem_of_dom, is_fresh.
  assert (Hold : ∀ q s, heap w !! q = Some s → q ≠ p ∧ out s ≠ o).
  { intros q s Hs. split; [congruence|].
    destruct (inv_alloc w Hinv q s Hs) as [st Hst]. congruence. }
  constructor; simpl.
  - intros c' X q HX Hq.
    destruct (inv_subs w Hinv c' X q) as (s & Hs & Hc); [done..|].
    exists s. split; [|done]. rewrite lookup_insert_ne; [done|].
    intros E. by destruct (Hold q s Hs).
  - intros q s. rewrite lookup_insert. case_decide.
    + intros [= <-]. simpl. rewrite lookup_insert_eq. eauto.
    + intros Hs. destruct (Hold q s Hs).
      rewrite lookup_insert_ne by done. by eapply inv_alloc.
  - intros q q' s t. rewrite !lookup_insert.
    repeat case_decide; subst; try done.
    + intros [= <-] Ht; simpl. intros E. by destruct (Hold q' t Ht).
    + intros Hs [= <-]; simpl. intros E. by destruct (Hold q s Hs).
    + by apply inv_fresh.
  - intros Hrun c' st. rewrite lookup_insert. case_decide.
    + by intros [= <-].
    + by apply inv_open.
  - intros i t Ht. destruct (inv_task w Hinv i t Ht) as [s Hs].
    exists s. destruct (Hold _ s Hs). by rewrite lookup_insert_ne.
  - intros c' st i. unfold expected; simpl.
    destruct (tasks w !! i) as [t|] eqn:Ht.
    + destruct (inv_task w Hinv i t Ht) as [s Hs]. destruct (Hold _ s Hs).
      rewrite (lookup_insert_ne (heap w)), Hs by done.
      rewrite lookup_insert. case_decide as E.
      * intros [= <-]. simpl. subst c'. by rewrite decide_False.
      * intros Hst. rewrite (inv_log w Hinv c' st i Hst).
        unfold expected. by rewrite Ht, Hs.
    + rewrite lookup_insert. case_decide as E.
      * by intros [= <-].
      * intros Hst. rewrite (inv_log w Hinv c' st i Hst).
        by apply expected_None.
Qed.

Lemma run_registrations_inv c repo w w' :
  inv w → run_registrations c repo w = Ok w' → inv w'.
Proof.
  intros Hinv [= <-]. constructor; simpl; apply Hinv.
Qed.

Lemma run_unregister_inv p w w' :
  inv w → run_unregister p w = Ok w' → inv w'.
Proof.
  intros Hinv H.
  destruct (heap w !! p) as [s|] eqn:Hp;
    [|by unfold run_unregister, deref in H; rewrite Hp in H].
  destruct (run_unregister_ok w p s Hp)
    as (w1 & H1 & Hh & Hc & Hr & Ht & Hrun & Hs).
  rewrite H in H1. injection H1 as <-.
  constructor; rewrite ?Hh, ?Hc, ?Ht, ?Hrun; try apply Hinv.
  - intros c X q. rewrite Hs. case_decide.
    + destruct (subs w !! c) as [X'|] eqn:HX; [|done].
      intros [= <-] [Hq _]%elem_of_difference.
      by apply (inv_subs w Hinv c X' q HX).
    + apply Hinv.
  - intros c st i Hst. rewrite (inv_log w Hinv c st i Hst).
    symmetry. by apply expected_ext.
Qed.

Lemma run_pub_inv cl ev w w' :
  inv w → running w = true → run_pub cl ev w = Ok w' → inv w'.
Proof.
  intros Hinv Hrun H.
  destruct (run_pub_ok w cl ev w' H) as (Hh & Hs & Hr & Ht & Hrun' & Hc).
  constructor; rewrite ?Hh, ?Hs, ?Ht, ?Hrun'.
  - apply Hinv.
  - intros p s Hp. rewrite Hc. apply fmap_is_Some. by eapply inv_alloc.
  - apply Hinv.
  - intros _ c st. rewrite Hc.
    destruct (chans w !! c) as [st0|] eqn:Hst; [|done].
    intros [= <-]. simpl. by eapply inv_open.
  - apply Hinv.
  - intros c st i. rewrite Hc.
    destruct (chans w !! c) as [st0|] eqn:Hst; [|done].
    intros [= <-]. simpl. rewrite replayed_app, replayed_live, app_nil_r.
    rewrite (inv_log w Hinv c st0 i Hst). symmetry. by apply expected_ext.
Qed.

Lemma run_quit_inv w w' :
  inv w → running w = true → run_quit w = Ok w' → inv w'.
Proof.
  intros Hinv Hrun H.
  destruct (run_quit_ok w Hinv Hrun)
    as (w1 & H1 & Hh & Hs & Hr & Ht & Hrun' & Hc).
  rewrite H in H1. injection H1 as <-.
  constructor; rewrite ?Hh, ?Hs, ?Ht, ?Hrun'.
  - apply Hinv.
  - intros p s Hp. rewrite Hc. apply fmap_is_Some. by eapply inv_alloc.
  - apply Hinv.
  - done.
  - apply Hinv.
  - intros c st i. rewrite Hc.
    destruct (chans w !! c) as [st0|] eqn:Hst; [|done].
    intros [= <-]. simpl.
    rewrite (inv_log w Hinv c st0 i Hst). symmetry. by apply expected_ext.
Qed.

Lemma run_subs_inv p w w' : inv w → run_subs p w = Ok w' → inv w'.
Proof.
  intros Hinv H.
  destruct (heap w !! p) as [s|] eqn:Hp;
    [|by unfold run_subs, deref in H; rewrite Hp in H].
  destruct (run_subs_ok w p s Hp)
    as (w1 & H1 & Hh & Hc & Hr & Hrun & Hs & Ht).
  rewrite H in H1. injection H1 as <-.
  assert (Hlen : ∀ i t, tasks w' !! i = Some t →
            tasks w !! i = Some t ∨
            (tasks w !! i = None ∧ t_sub t = p ∧ t_sent t = 0)).
  { intros i t. rewrite Ht. case_decide; [|by left].
    destruct (repos w !! channel s) as [repo|]; [|by left].
    intros [Hl|[Hi Hl]]%lookup_app_Some; [by left|right].
    apply list_lookup_singleton_Some in Hl as [_ <-].
    split; [|done]. apply lookup_ge_None. lia. }
  assert (Hkeep : ∀ i t, tasks w !! i = Some t → tasks w' !! i = Some t).
  { intros i t Hi. rewrite Ht. case_decide; [|done].
    destruct (repos w !! channel s) as [repo|]; [|done].
    by apply lookup_app_l_Some. }
  constructor; rewrite ?Hh, ?Hc, ?Hrun; try apply Hinv.
  - intros c X q. rewrite Hs. destruct (decide (channel s = c)) as [E|E].
    + intros HX Hq. injection HX as <-.
      apply elem_of_union in Hq as [->%elem_of_singleton|Hq]; [by exists s|].
      destruct (subs w !! c) as [X|] eqn:HX; [|by apply elem_of_empty in Hq].
      by apply (inv_subs w Hinv c X q).
    + apply Hinv.
  - intros i t [Hi|(_ & -> & _)]%Hlen; [by eapply inv_task|eauto].
  - intros c st i Hst. rewrite (inv_log w Hinv c st i Hst).
    unfold expected. rewrite Hh.
    destruct (tasks w !! i) as [t|] eqn:Hi.
    + by rewrite (Hkeep i t Hi).
    + destruct (tasks w' !! i) as [t|] eqn:Hi'; [|done].
      destruct (Hlen i t Hi') as [?|(_ & -> & ->)]; [congruence|].
      rewrite Hp. by destruct (decide (out s = c)).
Qed.

Lemma replay_send_Ok i w w' :
  replay_send i w = Ok w' →
  ∃ t s ev st,
    tasks w !! i = Some t ∧ heap w !! t_sub t = Some s ∧
    replay_events (t_repo t) s !! t_sent t = Some ev ∧
    chans w !! out s = Some st ∧ closed st = false ∧
    heap w' = heap w ∧ subs w' = subs w ∧ repos w' = repos w ∧
    running w' = running w ∧
    chans w' = <[out s := {| closed := false;
                             sent := sent st ++ [(Replayed i, ev)] |}]> (chans w) ∧
    tasks w' = <[i := {| t_repo := t_repo t; t_sub := t_sub t;
                         t_sent := S (t_sent t) |}]> (tasks w).
Proof.
  unfold replay_send, deref.
  destruct (tasks w !! i) as [t|] eqn:Ht; [|done].
  destruct (heap w !! t_sub t) as [s|] eqn:Hs; [|done]. cbn [obind].
  destruct (replay_events (t_repo t) s !! t_sent t) as [ev|] eqn:Hev; [|done].
  destruct (chan_send (handlers w) (Replayed i) ev (out s) (chans w))
    as [cs| |] eqn:Hsend; [|done..].
  apply chan_send_Ok in Hsend as (st & Hst & Hc & ->).
  cbn [obind]. intros [= <-]. exists t, s, ev, st. by split_and!.
Qed.

(** A send of a replay goroutine completes only when the handler of its
    subscription is receiving; it changes nothing about the handlers. *)
Lemma replay_send_receiving i w w' :
  replay_send i w = Ok w' →
  handlers w' = handlers w ∧
  ∃ t s, tasks w !! i = Some t ∧ heap w !! t_sub t = Some s ∧
         handlers w !! out s = Some InLoop.
Proof.
  unfold replay_send, deref.
  destruct (tasks w !! i) as [t|] eqn:Ht; [|done].
  destruct (heap w !! t_sub t) as [s|] eqn:Hs; [|done]. cbn [obind].
  destruct (replay_events (t_repo t) s !! t_sent t) as [ev|] eqn:Hev; [|done].
  destruct (chan_send (handlers w) (Replayed i) ev (out s) (chans w))
    as [cs| |] eqn:Hsend; [|done..].
  apply chan_send_receiving in Hsend.
  cbn [obind]. intros [= <-]. split; [done|]. by exists t, s.
Qed.

(** What a move of a handler changes. *)
Lemma handler_moves_Ok now next p w w' :
  handler_moves now next p w = Ok w' →
  ∃ s, heap w !! p = Some s ∧ handlers w !! out s = Some now ∧
       heap w' = heap w ∧ chans w' = chans w ∧ subs w' = subs w ∧
       repos w' = repos w ∧ tasks w' = tasks w ∧ running w' = running w ∧
       handlers w' = <[out s := next]> (handlers w).
Proof.
  unfold handler_moves. destruct (heap w !! p) as [s|] eqn:Hp; [|done].
  destruct (decide (handlers w !! out s = Some now)); [|done].
  intros [= <-]. exists s. by split_and!.
Qed.

Lemma enter_loop_Ok p w w' :
  enter_loop p w = Ok w' →
  ∃ s, heap w !! p = Some s ∧ handlers w !! out s = Some AtStart ∧
       p ∈ default ∅ (subs w !! channel s) ∧
       heap w' = heap w ∧ chans w' = chans w ∧ subs w' = subs w ∧
       repos w' = repos w ∧ tasks w' = tasks w ∧ running w' = running w ∧
       handlers w' = <[out s := InLoop]> (handlers w).
Proof.
  unfold enter_loop. destruct (heap w !! p) as [s|] eqn:Hp; [|done].
  destruct (decide (p ∈ default ∅ (subs w !! channel s))); [|done].
  intros (s' & Hp' & ? & ? & ? & ? & ? & ? & ? & ?)%handler_moves_Ok.
  assert (s' = s) as -> by congruence. exists s. by split_and!.
Qed.



Lemma handler_moves_inv now next p w w' :
  inv w → handler_moves now next p w = Ok w' → inv w'.
Proof.
  intros Hinv (s & _ & _ & Hh & Hc & Hs & Hr & Ht & Hrun & _)%handler_moves_Ok.
  constructor; rewrite ?Hh, ?Hc, ?Hs, ?Ht, ?Hrun; try apply Hinv.
  intros c st i Hst. rewrite (inv_log w Hinv c st i Hst).
  symmetry. by apply expected_ext.
Qed.

Lemma enter_loop_inv p w w' : inv w → enter_loop p w = Ok w' → inv w'.
Proof.
  intros Hinv. unfold enter_loop. destruct (heap w !! p) as [s|]; [|done].
  destruct (decide _); [|done]. by apply handler_moves_inv.
Qed.

(** [run] does not change where the handlers are. *)
Lemma run_handlers m w w' : run m w = Ok w' → handlers w' = handlers w.
Proof.
  unfold run. destruct (running w); [|done].
  destruct m as [c repo|q|cl ev|q|]; simpl.
  - by intros [= <-].
  - unfold run_unregister. destruct (deref (heap w) q); [|done..].
    by intros [= <-].
  - by intros [? _]%run_pub_receiving.
  - unfold run_subs. destruct (deref (heap w) q); [|done..].
    by intros [= <-].
  - unfold run_quit. destruct (foldM _ _ (chans w)); [|done..].
    by intros [= <-].
Qed.

(** A handler that reaches or leaves its select changes nothing of what
    [run] and the replay goroutines work on. *)
Lemma enter_frame p w w' :
  enter_loop p w = Ok w' →
  heap w' = heap w ∧ chans w' = chans w ∧ subs w' = subs w ∧
  repos w' = repos w ∧ tasks w' = tasks w ∧ running w' = running w.
Proof. intros (?&?&?&?&?&?&?&?&?&?&?)%enter_loop_Ok. by split_and!. Qed.

Lemma leave_frame p w w' :
  leave_loop p w = Ok w' →
  heap w' = heap w ∧ chans w' = chans w ∧ subs w' = subs w ∧
  repos w' = repos w ∧ tasks w' = tasks w ∧ running w' = running w.
Proof. intros (?&?&?&?&?&?&?&?&?&?)%handler_moves_Ok. by split_and!. Qed.

Lemma replay_send_inv i w w' : inv w → replay_send i w = Ok w' → inv w'.
Proof.
  intros Hinv (t & s & ev & st & Ht & Hs & Hev & Hst & Hopen & Hh & Hsb & Hr
               & Hrun & Hc & Htk)%replay_send_Ok.
  assert (Hi : i < length (tasks w)) by by eapply lookup_lt_Some.
  constructor; rewrite ?Hh, ?Hsb, ?Hrun, ?Hc, ?Htk; try apply Hinv.
  - intros p s' Hp. rewrite lookup_insert. case_decide; [eauto|].
    by eapply inv_alloc.
  - intros Hrun' c st'. rewrite lookup_insert. case_decide.
    + by intros [= <-].
    + by apply inv_open.
  - intros j t'. destruct (decide (i = j)) as [<-|Hne].
    + rewrite list_lookup_insert_eq by done. intros [= <-]. simpl. eauto.
    + rewrite list_lookup_insert_ne by done. by apply inv_task.
  - intros c st' j. unfold expected. rewrite Hh, Htk.
    pose proof (inv_log w Hinv c) as Hlog. unfold expected in Hlog.
    destruct (decide (i = j)) as [<-|Hne].
    + rewrite list_lookup_insert_eq by done. simpl. rewrite Hs.
      rewrite lookup_insert. case_decide as E.
      * intros [= <-]. simpl. rewrite replayed_app, replayed_same.
        subst c. rewrite (Hlog st i Hst), Ht, Hs, decide_True by done.
        by rewrite (take_S_r _ _ ev).
      * intros Hst'. rewrite (Hlog st' i Hst'), Ht, Hs.
        by rewrite decide_False.
    + rewrite list_lookup_insert_ne by done.
      rewrite lookup_insert. case_decide as E.
      * intros [= <-]. simpl. rewrite replayed_app, replayed_other by done.
        subst c. rewrite app_nil_r. by apply Hlog.
      * apply Hlog.
Qed.

Lemma step_inv a w w' : inv w → step a w = Ok w' → inv w'.
Proof.
  intros Hinv. destruct a as [c lid|m|i|p|p]; simpl;
    [|..|by apply enter_loop_inv|by apply handler_moves_inv].
  - by apply new_sub_inv.
  - unfold run. destruct (running w) eqn:Hrun; [|done].
    destruct m.
    + by apply run_registrations_inv.
    + by apply run_unregister_inv.
    + by apply run_pub_inv.
    + by apply run_subs_inv.
    + by apply run_quit_inv.
  - by apply replay_send_inv.
Qed.

Lemma exec_inv tr w w' : inv w → exec tr w = Ok w' → inv w'.
Proof.
  intros Hinv H. unfold exec in H. revert Hinv.
  eapply (foldM_preserves (λ x y, inv x → inv y)); [auto|auto| |exact H].
  intros a x y _ Hs Hx. by eapply step_inv.
Qed.

(** Every state the server reaches from [NewServer] has the invariant. *)
Lemma reachable_inv tr w : exec tr NewServer = Ok w → inv w.
Proof. apply exec_inv, inv_NewServer. Qed.
End world_facts.

(** For a step [H] of a handler reaching or leaving its select: what the
    step has left as it was. *)
Ltac handler_frame H :=
  first [apply enter_frame in H | apply leave_frame in H];
  destruct H as (Hfh & Hfc & Hfs & Hfr & Hft & Hfn).

Section routing_facts.
Context {Event : Type}.
Implicit Types (w : world Event) (h : gmap ptr subscription).

(** In a list without repetition, a path owned by one member is hit once. *)
Lemma hits_unique h c L p s :
  NoDup L → p ∈ L → h !! p = Some s → out s = c →
  (∀ q t, q ∈ L → h !! q = Some t → out t = c → q = p) →
  hits h c L = 1.
Proof.
  intros Hnd Hin Hp Ho. induction L as [|p0 L IH]; intros Honly.
  { by apply elem_of_nil in Hin. }
  apply NoDup_cons in Hnd as [Hp0 Hnd]. rewrite hits_cons.
  apply elem_of_cons in Hin as [<-|Hin].
  - rewrite Hp; simpl. rewrite decide_True by congruence.
    rewrite hits_zero; [done|]. intros q t Hq Ht Hc.
    apply Hp0. by rewrite <- (Honly q t); [|right|..].
  - rewrite IH; [|done..|intros q t ?; apply Honly; by right].
    rewrite decide_False; [done|]. intros E.
    destruct (h !! p0) as [t|] eqn:Ht; simplify_eq/=.
    apply Hp0. by rewrite (Honly p0 t); [|left|..].
Qed.


(** A registered subscription is visited by a Publish once for every time
    its channel is named. *)
Lemma hits_pub_targets w cl c X p s :
  inv w → subs w !! c = Some X → p ∈ X → heap w !! p = Some s →
  hits (heap w) (out s) (pub_targets (subs w) cl) = named c cl.
Proof.
  intros Hinv HX Hp Hs.
  induction cl as [|c' cl IH]; [done|].
  rewrite pub_targets_cons, hits_app, IH. unfold named.
  rewrite filter_cons. destruct (decide (c' = c)) as [->|Hne].
  - rewrite HX. simpl.
    rewrite (hits_unique _ _ _ p s); [done|apply NoDup_elements| |done..|].
    + by apply elem_of_elements.
    + intros q t _ Ht Ho. by apply (inv_fresh w Hinv q p t s).
  - rewrite hits_zero; [done|]. intros q t Hq Ht Ho.
    assert (q = p) as -> by by apply (inv_fresh w Hinv q p t s).
    apply elem_of_elements in Hq.
    destruct (subs w !! c') as [X'|] eqn:HX'; [|by apply elem_of_empty in Hq].
    destruct (inv_subs w Hinv c' X' p HX' Hq) as (s1 & Hs1 & Hc1).
    destruct (inv_subs w Hinv c X p HX Hp) as (s2 & Hs2 & Hc2).
    congruence.
Qed.


(** Shutdown visits a registered subscription once. *)
Lemma hits_all_subs w c X p s :
  inv w → subs w !! c = Some X → p ∈ X → heap w !! p = Some s →
  hits (heap w) (out s) (all_subs (subs w)) = 1.
Proof.
  intros Hinv HX Hp Hs. apply (hits_unique _ _ _ p s); [| |done..|].
  - eapply NoDup_all_subs, inv_subs, Hinv.
  - apply elem_of_all_subs. eauto.
  - intros q t _ Ht Ho. by apply (inv_fresh w Hinv q p t s).
Qed.

Lemma pushed_zero (x : origin * Event) (st : chan Event) : pushed 0 x st = st.
Proof. destruct st. unfold pushed; simpl. by rewrite app_nil_r. Qed.

Lemma shut_false (st : chan Event) : shut false st = st.
Proof. destruct st. unfold shut; simpl. by rewrite orb_false_r. Qed.
End routing_facts.

Section step_facts.
Context {Event : Type}.
Implicit Types (w : world Event) (cs : gmap chan_id (chan Event)).

Lemma length_pos_nonempty (x : string) : 0 < String.length x ↔ x ≠ ""%string.
Proof. destruct x; simpl; split; (done || lia). Qed.

Lemma no_new_close_refl cs : no_new_close cs cs.
Proof. intros c st'. eauto. Qed.

Lemma no_new_close_trans cs1 cs2 cs3 :
  no_new_close cs1 cs2 → no_new_close cs2 cs3 → no_new_close cs1 cs3.
Proof.
  intros H12 H23 c st3 H3 Hc.
  destruct (H23 c st3 H3 Hc) as (st2 & H2 & Hc2). eauto.
Qed.

Lemma chan_send_no_new_close hs o ev c cs cs' :
  chan_send hs o ev c cs = Ok cs' → no_new_close cs cs'.
Proof.
  intros (st & Hst & Ho & ->)%chan_send_Ok c' st'.
  rewrite lookup_insert. case_decide; [by intros [= <-]|eauto].
Qed.

Lemma run_pub_no_new_close cl ev w w' :
  run_pub cl ev w = Ok w' → no_new_close (chans w) (chans w').
Proof.
  unfold run_pub.
  destruct (foldM _ cl (chans w)) as [cs'| |] eqn:E; [|done..].
  intros [= <-]; simpl. revert E.
  apply foldM_preserves;
    [apply no_new_close_refl|apply no_new_close_trans|].
  intros c x y _. unfold pub_channel.
  apply foldM_preserves;
    [apply no_new_close_refl|apply no_new_close_trans|].
  intros p x' y' _. unfold pub_one. destruct (deref _ p); [|done..].
  apply chan_send_no_new_close.
Qed.

(** A replay goroutine pays no attention to the repository table. *)
Lemma replay_send_registrations i c repo w :
  replay_send i {| heap := heap w; chans := chans w; subs := subs w;
                   repos := <[c := repo]> (repos w);
                   tasks := tasks w; running := running w;
        handlers := handlers w |}
  = (w1 ←! replay_send i w; run_registrations c repo w1).
Proof.
  unfold replay_send; simpl.
  destruct (tasks w !! i) as [t|]; [|done].
  destruct (deref (heap w) (t_sub t)) as [s| |]; [|done..]. simpl.
  destruct (replay_events (t_repo t) s !! t_sent t) as [ev|]; [|done].
  by destruct (chan_send _ _ ev (out s) (chans w)).
Qed.
End step_facts.

Section replay_facts.
Context {Event : Type}.
Implicit Types (w : world Event) (cs : gmap chan_id (chan Event)).
Implicit Types (t : task Event) (tr : list (action Event)).

(** The loop of [replay] on an open channel whose handler is receiving. *)
Lemma replay_loop_open hs o (evs : list Event) c cs st :
  cs !! c = Some st → closed st = false → hs !! c = Some InLoop →
  foldM (λ ev, chan_send hs o ev c) evs cs
  = Ok (<[c := {| closed := false; sent := sent st ++ (pair o <$> evs) |}]> cs).
Proof.
  intros Hst Hopen Hr. revert cs st Hst Hopen.
  induction evs as [|ev evs IH]; intros cs st Hst Hopen.
  - simpl. rewrite app_nil_r. f_equal. symmetry. apply insert_id.
    rewrite Hst. f_equal. destruct st; simpl in *. by subst.
  - cbn [foldM]. rewrite (chan_send_open _ _ _ _ _ st) by done. cbn [obind].
    rewrite (IH _ {| closed := false; sent := sent st ++ [(o, ev)] |});
      [|by rewrite lookup_insert_eq|done].
    rewrite insert_insert_eq. simpl. by rewrite <- app_assoc.
Qed.


(** The loop of [replay] with events to send, on an open channel whose
    handler is not receiving, waits at its first send. *)
Lemma replay_loop_waits hs o ev (evs : list Event) c cs st :
  cs !! c = Some st → closed st = false → hs !! c ≠ Some InLoop →
  foldM (λ ev, chan_send hs o ev c) (ev :: evs) cs = Blocked.
Proof.
  intros Hst Hopen Hr. cbn [foldM].
  by rewrite (chan_send_waits _ _ _ _ _ st).
Qed.


(** Subscription structs are never written after they are built. *)
Lemma step_heap a w w' p s :
  step a w = Ok w' → heap w !! p = Some s → heap w' !! p = Some s.
Proof.
  intros Hstep Hp. destruct a as [c lid|m|i|q|q]; simpl in Hstep;
    [|..|apply enter_loop_Ok in Hstep as (?&?&?&?& Hh &?); by rewrite Hh
     |apply handler_moves_Ok in Hstep as (?&?&?& Hh &?); by rewrite Hh].
  - injection Hstep as <-. simpl. rewrite lookup_insert_ne; [done|].
    intros E. pose proof (is_fresh (dom (heap w))) as Hf.
    rewrite E in Hf. apply Hf, elem_of_dom. eauto.
  - unfold run in Hstep. destruct (running w); [|done].
    destruct m as [c repo|q|cl ev|q|].
    + by injection Hstep as <-.
    + unfold run_unregister in Hstep.
      destruct (deref (heap w) q); [|done..]. by injection Hstep as <-.
    + unfold run_pub in Hstep.
      destruct (foldM _ cl (chans w)); [|done..]. by injection Hstep as <-.
    + unfold run_subs in Hstep.
      destruct (deref (heap w) q); [|done..]. by injection Hstep as <-.
    + unfold run_quit in Hstep.
      destruct (foldM _ _ (chans w)); [|done..]. by injection Hstep as <-.
  - apply replay_send_Ok in Hstep as (?&?&?&?&?&?&?&?&?& Hh &?).
    by rewrite Hh.
Qed.

Lemma exec_heap tr w w' p s :
  exec tr w = Ok w' → heap w !! p = Some s → heap w' !! p = Some s.
Proof.
  intros H. unfold exec in H. revert H.
  apply (foldM_preserves (λ x y, heap x !! p = Some s → heap y !! p = Some s));
    [auto|auto|].
  intros a x y _ Hs Hx. by eapply step_heap.
Qed.



(** Left alone with a handler that is receiving, a goroutine puts all its
    remaining events on an open path. *)
Lemma replay_sends_run n w i t s st :
  tasks w !! i = Some t → heap w !! t_sub t = Some s →
  chans w !! out s = Some st → closed st = false →
  handlers w !! out s = Some InLoop →
  n = length (replay_events (t_repo t) s) - t_sent t →
  ∃ w', exec (replicate n (ReplaySend i)) w = Ok w' ∧
    chans w'
    = <[out s := {| closed := false;
                    sent := sent st ++ (pair (Replayed i)
                              <$> drop (t_sent t) (replay_events (t_repo t) s)) |}]>
        (chans w).
Proof.
  revert w t st. induction n as [|n IH]; intros w t st Ht Hs Hst Hopen Hr Hn.
  - exists w. split; [done|]. rewrite drop_ge by lia. simpl.
    rewrite app_nil_r. symmetry. apply insert_id. rewrite Hst. f_equal.
    destruct st; simpl in *. by subst.
  - destruct (lookup_lt_is_Some_2 (replay_events (t_repo t) s) (t_sent t))
      as [ev Hev]; [lia|].
    set (t1 := {| t_repo := t_repo t; t_sub := t_sub t; t_sent := S (t_sent t) |}).
    set (st1 := {| closed := false; sent := sent st ++ [(Replayed i, ev)] |}).
    set (w1 := {| heap := heap w; chans := <[out s := st1]> (chans w);
                  subs := subs w; repos := repos w;
                  tasks := <[i := t1]> (tasks w); running := running w;
                  handlers := handlers w |}).
    assert (replay_send i w = Ok w1) as Hstep.
    { unfold replay_send, deref. rewrite Ht, Hs. cbn [obind]. rewrite Hev.
      by rewrite (chan_send_open _ _ _ _ _ st). }
    destruct (IH w1 t1 st1) as (w' & Hex & Hc).
    + apply list_lookup_insert_eq. by eapply lookup_lt_Some.
    + done.
    + apply lookup_insert_eq.
    + done.
    + done.
    + simpl. lia.
    + exists w'. split.
      * cbn [replicate]. unfold exec. cbn [foldM]. simpl step.
        rewrite Hstep. done.
      * rewrite Hc. simpl. rewrite insert_insert_eq.
        rewrite (drop_S _ ev (t_sent t)) by done.
        rewrite fmap_cons, <- app_assoc. done.
Qed.

End replay_facts.

(** * The claims *)

Section claims.
Context {Event : Type}.
Implicit Types (w : world Event) (ev : Event) (tr : list (action Event)).


(** C3.  In a state the server has reached and in which [run] is still
    looping, Shutdown completes (closing a closed path would panic), it
    visits no subscription twice, and for every subscription in the
    routing table the path was open before, [close] is executed on it
    exactly once, and it is closed afterwards with its contents kept.
    The path of a subscription that is not in the table is left as it
    was. *)
Theorem shutdown_closes_every_path_once tr w :
  exec tr NewServer = Ok w → running w = true →
  ∃ w', run MsgQuit w = Ok w' ∧ running w' = false ∧
    NoDup (all_subs (subs w)) ∧
    (∀ c X p, subs w !! c = Some X → p ∈ X →
       ∃ s st, heap w !! p = Some s ∧
         chans w !! out s = Some st ∧ closed st = false ∧
         hits (heap w) (out s) (all_subs (subs w)) = 1 ∧
         chans w' !! out s = Some {| closed := true; sent := sent st |}) ∧
    (∀ p s, heap w !! p = Some s →
       (∀ c X, subs w !! c = Some X → p ∉ X) →
       chans w' !! out s = chans w !! out s).
Proof.
  intros Hreach Hrun. pose proof (reachable_inv tr w Hreach) as Hinv.
  destruct (run_quit_ok w Hinv Hrun) as (w' & Hq & _ & _ & _ & _ & Hstop & Hc).
  exists w'. split; [by unfold run; rewrite Hrun|]. split; [done|].
  split_and!.
  - eapply NoDup_all_subs, inv_subs, Hinv.
  - intros c X p HX Hp.
    destruct (inv_subs w Hinv c X p HX Hp) as (s & Hs & Hch).
    destruct (inv_alloc w Hinv p s Hs) as [st Hst].
    pose proof (inv_open w Hinv Hrun _ _ Hst) as Hopen.
    pose proof (hits_all_subs w c X p s Hinv HX Hp Hs) as Hone.
    exists s, st. split_and!; [done..|].
    rewrite Hc, Hst, Hone. simpl. unfold shut. by rewrite Hopen.
  - intros p s Hs Hnot. rewrite Hc, hits_zero.
    + destruct (chans w !! out s); simpl; [|done]. by rewrite shut_false.
    + intros q t (c & X & HX & Hin)%elem_of_all_subs Ht Ho.
      assert (q = p) as -> by by apply (inv_fresh w Hinv q p t s).
      by apply (Hnot c X).
Qed.

(** C9.  In every state reached by any sequence of steps (registrations,
    subscribes, unsubscribes, publishes, and also new handlers, replay
    sends and shutdown), a subscription found in the set of channel [c]
    was created with channel [c], is in the set of no other channel, and
    occurs exactly once in the whole routing table. *)
Theorem subscription_under_its_own_channel_once tr w c X p :
  exec tr NewServer = Ok w → subs w !! c = Some X → p ∈ X →
  (∃ s, heap w !! p = Some s ∧ channel s = c) ∧
  (∀ c' X', subs w !! c' = Some X' → p ∈ X' → c' = c) ∧
  length (filter (λ q, q = p) (elements X)) = 1 ∧
  length (filter (λ q, q = p) (all_subs (subs w))) = 1.
Proof.
  intros Hreach HX Hp. pose proof (reachable_inv tr w Hreach) as Hinv.
  destruct (inv_subs w Hinv c X p HX Hp) as (s & Hs & Hch).
  split_and!.
  - eauto.
  - intros c' X' HX' Hp'.
    destruct (inv_subs w Hinv c' X' p HX' Hp') as (s' & Hs' & Hch').
    congruence.
  - apply count_NoDup; [apply NoDup_elements|by apply elem_of_elements].
  - apply count_NoDup.
    + eapply NoDup_all_subs, inv_subs, Hinv.
    + apply elem_of_all_subs. eauto.
Qed.

(** C4.  While [run] is looping, a Subscribe of an existing subscription
    completes without fault and the subscription is in its channel's
    subscriber set afterwards.  If its [lastEventId] is not empty and a
    repository is registered for its channel, exactly one replay goroutine
    is added, holding that repository and that subscription (through
    which it reads the channel and the last id); if no repository is
    registered for the channel, no goroutine is added. *)
Theorem subscribe_joins_and_starts_one_replay w p s :
  running w = true → heap w !! p = Some s →
  ∃ w', run (MsgSubs p) w = Ok w' ∧
    (∃ X, subs w' !! channel s = Some X ∧ p ∈ X) ∧
    (∀ repo, lastEventId s ≠ ""%string → repos w !! channel s = Some repo →
       tasks w' = tasks w ++ [ {| t_repo := repo; t_sub := p; t_sent := 0 |} ]) ∧
    (repos w !! channel s = None → tasks w' = tasks w).
Proof.
  intros Hrun Hp.
  destruct (run_subs_ok w p s Hp) as (w' & H & _ & _ & _ & _ & Hs & Ht).
  exists w'. split; [by unfold run; rewrite Hrun|]. split_and!.
  - eexists. rewrite Hs, decide_True by done. split; [done|].
    apply elem_of_union_l. by apply elem_of_singleton.
  - intros repo Hne%length_pos_nonempty Hr.
    by rewrite Ht, decide_True, Hr by done.
  - intros Hr. rewrite Ht, Hr. by destruct (decide _).
Qed.

(** C5.  While [run] is looping, a Subscribe of a subscription whose
    [lastEventId] is empty completes and adds no replay goroutine,
    whatever the repository table holds for its channel. *)
Theorem empty_last_id_starts_no_replay w p s :
  running w = true → heap w !! p = Some s → lastEventId s = ""%string →
  ∃ w', run (MsgSubs p) w = Ok w' ∧ tasks w' = tasks w.
Proof.
  intros Hrun Hp Hid.
  destruct (run_subs_ok w p s Hp) as (w' & H & _ & _ & _ & _ & _ & Ht).
  exists w'. split; [by unfold run; rewrite Hrun|].
  rewrite Ht, Hid. by rewrite decide_False by (simpl; lia).
Qed.

(** C6.  While [run] is looping, an Unsubscribe of an existing
    subscription completes without fault; afterwards the subscription is
    not in its channel's set; a second Unsubscribe completes and changes
    nothing; and when the subscription was not in the set to begin with
    (the channel having no set at all, or a set without it), the first
    Unsubscribe changes nothing either. *)
Theorem unsubscribe_idempotent w p s :
  running w = true → heap w !! p = Some s →
  ∃ w1, run (MsgUnregister p) w = Ok w1 ∧
    (∀ X, subs w1 !! channel s = Some X → p ∉ X) ∧
    run (MsgUnregister p) w1 = Ok w1 ∧
    ((∀ X, subs w !! channel s = Some X → p ∉ X) → w1 = w).
Proof.
  destruct w as [h cs sb rp tk rn hs]. simpl. intros -> Hp.
  unfold run, run_unregister, deref. simpl. rewrite Hp. cbn [obind].
  eexists. split; [done|]. cbn. rewrite Hp. cbn [obind].
  destruct (sb !! channel s) as [X|] eqn:HX.
  - split_and!.
    + intros X'. rewrite lookup_insert_eq. intros [= <-].
      rewrite elem_of_difference, elem_of_singleton. tauto.
    + rewrite lookup_insert_eq, insert_insert_eq.
      do 3 f_equal. apply set_eq. intros q.
      rewrite !elem_of_difference. tauto.
    + intros Hnot. f_equal. apply insert_id. rewrite HX. f_equal.
      apply set_eq. intros q.
      rewrite elem_of_difference, elem_of_singleton.
      split; [|tauto]. intros Hq. split; [done|]. intros ->.
      by apply (Hnot X).
  - rewrite HX. by split_and!.
Qed.

(** C7.  While [run] is looping, a registration for channel [c] completes;
    afterwards the table holds the new repository, and only it, for [c],
    and what it holds for other channels is unchanged.  A Subscribe
    handled after it for a subscription of [c] with a last id starts its
    replay with the new repository.  The replay goroutines that exist are
    untouched, and a send by any of them gives the same result whether it
    happens before or after the registration. *)
Theorem registration_replaces_for_later_replays w c r2 :
  running w = true →
  ∃ w', run (MsgRegistrations c r2) w = Ok w' ∧
    (∀ r, repos w' !! c = Some r ↔ r = r2) ∧
    (∀ c', c' ≠ c → repos w' !! c' = repos w !! c') ∧
    tasks w' = tasks w ∧ heap w' = heap w ∧ chans w' = chans w ∧
    subs w' = subs w ∧
    (∀ p s, heap w !! p = Some s → channel s = c →
       lastEventId s ≠ ""%string →
       ∃ w'', run (MsgSubs p) w' = Ok w'' ∧
         tasks w'' = tasks w ++ [ {| t_repo := r2; t_sub := p; t_sent := 0 |} ]) ∧
    (∀ i, replay_send i w'
          = (w1 ←! replay_send i w; run (MsgRegistrations c r2) w1)).
Proof.
  intros Hrun.
  set (w' := {| heap := heap w; chans := chans w; subs := subs w;
                repos := <[c := r2]> (repos w);
                tasks := tasks w; running := running w;
        handlers := handlers w |}).
  exists w'. split; [by unfold run; rewrite Hrun|]. split_and!; try done.
  - intros r. simpl. rewrite lookup_insert_eq. naive_solver.
  - intros c' Hne. simpl. by rewrite lookup_insert_ne.
  - intros p s Hp <- Hid%length_pos_nonempty.
    destruct (run_subs_ok w' p s Hp) as (w'' & H & _ & _ & _ & _ & _ & Ht).
    exists w''. split; [by unfold run; simpl; rewrite Hrun|].
    rewrite Ht, decide_True by done. simpl.
    by rewrite lookup_insert_eq.
  - intros i. unfold w'. rewrite replay_send_registrations.
    destruct (replay_send i w) as [w1| |] eqn:E; [|done..]. simpl.
    unfold run.
    apply replay_send_Ok in E as (?&?&?&?&?&?&?&?&?&?&?&?& Hr &?).
    by rewrite Hr, Hrun.
Qed.

(** C10.  A step of the system other than Shutdown closes no path: a path
    found closed after the step was closed before it.  And when [run]
    handles an Unsubscribe of [p], the channels, the subscription structs,
    the repositories and the replay goroutines are all unchanged, and the
    only change to the routing table is that [p] is taken out of the set
    of its own channel, when that set exists. *)
Theorem only_shutdown_closes_paths a w w' :
  step a w = Ok w' → a ≠ Recv MsgQuit →
  no_new_close (chans w) (chans w') ∧
  (∀ p, a = Recv (MsgUnregister p) →
     chans w' = chans w ∧ heap w' = heap w ∧ repos w' = repos w ∧
     tasks w' = tasks w ∧ running w' = running w ∧
     ∃ s, heap w !! p = Some s ∧
       ∀ c, subs w' !! c
            = if decide (channel s = c)
              then (λ X, X ∖ {[p]}) <$> subs w !! c
              else subs w !! c).
Proof.
  intros Hstep Hnq. split.
  - destruct a as [c lid|m|i|q|q]; simpl in Hstep;
      [|..
       |apply enter_loop_Ok in Hstep as (?&?&?&?&?& Hc &?);
        rewrite Hc; apply no_new_close_refl
       |apply handler_moves_Ok in Hstep as (?&?&?&?& Hc &?);
        rewrite Hc; apply no_new_close_refl].
    + injection Hstep as <-. simpl. intros c' st'.
      rewrite lookup_insert. case_decide; [by intros [= <-]|eauto].
    + unfold run in Hstep. destruct (running w); [|done].
      destruct m as [c repo|p|cl ev|p|]; [| | | |done].
      * injection Hstep as <-. apply no_new_close_refl.
      * unfold run_unregister in Hstep.
        destruct (deref (heap w) p); [|done..].
        injection Hstep as <-. apply no_new_close_refl.
      * by eapply run_pub_no_new_close.
      * unfold run_subs in Hstep.
        destruct (deref (heap w) p); [|done..].
        injection Hstep as <-. apply no_new_close_refl.
    + apply replay_send_Ok in Hstep
        as (t & s & ev & st & _ & _ & _ & Hst & Hopen & _ & _ & _ & _ & -> & _).
      intros c' st'. rewrite lookup_insert.
      case_decide; [by intros [= <-]|eauto].
  - intros p ->. simpl in Hstep. unfold run in Hstep.
    destruct (running w) eqn:Hrun; [|done].
    destruct (heap w !! p) as [s|] eqn:Hp;
      [|by unfold run_unregister, deref in Hstep; rewrite Hp in Hstep].
    destruct (run_unregister_ok w p s Hp) as (w1 & H1 & ? & ? & ? & ? & ? & ?).
    rewrite Hstep in H1. injection H1 as <-.
    split_and!; [done..|congruence|by exists s].
Qed.

(** C2, as the code has it.  A push on a closed delivery path is a
    fault: for a replay goroutine that still has an event to send on a
    path that is closed, the send panics, and so would the send of the
    Publish loop on that path.  Once [run] has returned, though, no
    message is received any more, so a late Publish (or any other
    request) is never handled and pushes nothing: its sender waits. *)
Theorem push_on_closed_path_panics w i t s ev ev' st m :
  tasks w !! i = Some t → heap w !! t_sub t = Some s →
  replay_events (t_repo t) s !! t_sent t = Some ev →
  chans w !! out s = Some st → closed st = true → running w = false →
  step (ReplaySend i) w = Panic ∧
  pub_one (handlers w) (heap w) ev' (t_sub t) (chans w) = Panic ∧
  step (Recv m) w = Blocked.
Proof.
  intros Ht Hs Hev Hst Hclosed Hrun. split_and!.
  - simpl. unfold replay_send, deref. rewrite Ht, Hs. cbn [obind].
    rewrite Hev. by rewrite (chan_send_closed _ _ _ _ _ st).
  - unfold pub_one, deref. rewrite Hs. cbn [obind].
    by apply (chan_send_closed _ _ _ _ _ st).
  - simpl. unfold run. by rewrite Hrun.
Qed.

End claims.

(** * The claims on the concrete server *)

Example subscribed_table :
  subs subscribed !! "news"%string = Some {[1%positive; 3%positive]} ∧
  subs subscribed !! "sports"%string = Some {[2%positive]} ∧
  tasks subscribed = [ {| t_repo := history; t_sub := 1%positive; t_sent := 0 |} ].
Proof. split_and!; vm_compute; reflexivity. Qed.

Example listening_handlers :
  handlers listening !! 1%positive = Some InLoop ∧
  handlers listening !! 2%positive = Some InLoop ∧
  handlers listening !! 3%positive = Some InLoop ∧
  handlers listening !! 4%positive = Some AtStart.
Proof. split_and!; vm_compute; reflexivity. Qed.

Example departed_state :
  running departed = true ∧
  subs departed !! "news"%string = Some {[1%positive; 3%positive]} ∧
  handlers departed !! 1%positive = Some Left ∧
  chans departed !! 1%positive
  = Some {| closed := false; sent := [(Replayed 0, "6"%string)] |}.
Proof. split_and!; vm_compute; reflexivity. Qed.



(** C2 fails on the code: after a registration, a subscribe with a last id
    and Shutdown, the path of the subscription is closed and the replay
    goroutine, which has sent nothing yet, panics on its first push. *)
Lemma lingering_replay_push_panics :
  ∃ w : world string,
    exec [ Register "news" history; NewSub "news" "5";
           Subscribe 1%positive; Close ] NewServer = Ok w ∧
    closed <$> chans w !! 1%positive = Some true ∧
    step (ReplaySend 0) w = Panic.
Proof. eexists. split_and!; vm_compute; reflexivity. Qed.

Lemma push_on_closed_path_panics_witness :
  running stopped = false ∧
  step (ReplaySend 0) stopped = Panic ∧
  pub_one (handlers stopped) (heap stopped) "9"%string 1%positive
    (chans stopped) = Panic ∧
  step (Recv (MsgPub ["news"%string] "9"%string)) stopped = Blocked.
Proof.
  split; [reflexivity|].
  apply (push_on_closed_path_panics stopped 0
           {| t_repo := history; t_sub := 1%positive; t_sent := 0 |}
           {| channel := "news"; lastEventId := "5"; out := 1%positive |}
           "6"%string "9"%string {| closed := true; sent := [] |});
    vm_compute; reflexivity.
Defined.

Lemma shutdown_closes_every_path_once_witness :
  exec to_subscribed NewServer = Ok subscribed ∧ running subscribed = true ∧
  ∃ w', run MsgQuit subscribed = Ok w' ∧ running w' = false.
Proof.
  split; [vm_compute; reflexivity|]. split; [reflexivity|].
  destruct (shutdown_closes_every_path_once to_subscribed subscribed)
    as (w' & Hrun & Hstop & _); [vm_compute; reflexivity|reflexivity|].
  exists w'. split; [exact Hrun|exact Hstop].
Defined.

Lemma subscribe_joins_and_starts_one_replay_witness :
  ∃ w', run (MsgSubs 4%positive) subscribed = Ok w' ∧
    tasks w' = tasks subscribed
               ++ [ {| t_repo := history; t_sub := 4%positive; t_sent := 0 |} ].
Proof.
  destruct (subscribe_joins_and_starts_one_replay subscribed 4%positive
              {| channel := "news"; lastEventId := "5"; out := 4%positive |})
    as (w' & Hrun & _ & Hstart & _); [reflexivity|vm_compute; reflexivity|].
  exists w'. split; [exact Hrun|].
  apply Hstart; [discriminate|vm_compute; reflexivity].
Defined.

Lemma empty_last_id_starts_no_replay_witness :
  repos subscribed !! "news"%string = Some history ∧
  ∃ w', run (MsgSubs 3%positive) subscribed = Ok w' ∧ tasks w' = tasks subscribed.
Proof.
  split; [vm_compute; reflexivity|].
  apply (empty_last_id_starts_no_replay subscribed 3%positive
           {| channel := "news"; lastEventId := ""; out := 3%positive |});
    [reflexivity|vm_compute; reflexivity|reflexivity].
Defined.

Lemma unsubscribe_idempotent_witness :
  run (MsgUnregister 1%positive) subscribed = Ok unsubscribed ∧
  ∃ w1, run (MsgUnregister 1%positive) subscribed = Ok w1 ∧
    run (MsgUnregister 1%positive) w1 = Ok w1.
Proof.
  split; [vm_compute; reflexivity|].
  destruct (unsubscribe_idempotent subscribed 1%positive
              {| channel := "news"; lastEventId := "5"; out := 1%positive |})
    as (w1 & Hrun & _ & Hagain & _); [reflexivity|vm_compute; reflexivity|].
  exists w1. split; [exact Hrun|exact Hagain].
Defined.

Lemma registration_replaces_for_later_replays_witness :
  ∃ w', run (MsgRegistrations "news" history') subscribed = Ok w' ∧
    tasks w' = tasks subscribed ∧
    ∃ w'', run (MsgSubs 4%positive) w' = Ok w'' ∧
      tasks w'' = tasks subscribed
                  ++ [ {| t_repo := history'; t_sub := 4%positive; t_sent := 0 |} ].
Proof.
  destruct (registration_replaces_for_later_replays subscribed "news" history')
    as (w' & Hrun & _ & _ & Htasks & _ & _ & _ & Hlater & _); [reflexivity|].
  exists w'. split; [exact Hrun|]. split; [exact Htasks|].
  apply (Hlater 4%positive
           {| channel := "news"; lastEventId := "5"; out := 4%positive |});
    [vm_compute; reflexivity|reflexivity|discriminate].
Defined.



Lemma subscription_under_its_own_channel_once_witness :
  subs subscribed !! "news"%string = Some {[1%positive; 3%positive]} ∧
  (∃ s, heap subscribed !! 1%positive = Some s ∧ channel s = "news"%string) ∧
  length (filter (λ q, q = 1%positive) (all_subs (subs subscribed))) = 1.
Proof.
  split; [vm_compute; reflexivity|].
  destruct (subscription_under_its_own_channel_once to_subscribed subscribed
              "news"%string {[1%positive; 3%positive]} 1%positive)
    as (Hown & _ & _ & Honce).
  - vm_compute; reflexivity.
  - vm_compute; reflexivity.
  - apply elem_of_union_l, elem_of_singleton. reflexivity.
  - split; [exact Hown|exact Honce].
Defined.

Lemma only_shutdown_closes_paths_witness :
  step (Recv (MsgUnregister 1%positive)) subscribed = Ok unsubscribed ∧
  chans unsubscribed = chans subscribed.
Proof.
  split; [vm_compute; reflexivity|].
  destruct (only_shutdown_closes_paths (Recv (MsgUnregister 1%positive))
              subscribed unsubscribed) as [_ Hframe];
    [vm_compute; reflexivity|discriminate|].
  destruct (Hframe 1%positive eq_refl) as (Hchans & _). exact Hchans.
Defined.

(** * Further properties of the dispatcher *)

Section dispatcher_more.
Context {Event : Type}.
Implicit Types (w : world Event) (ev : Event) (tr : list (action Event)).
Implicit Types (cs : gmap chan_id (chan Event)) (st : chan Event).


Lemma pub_channel_empty hs h sb ev c cs :
  default ∅ (sb !! c) = ∅ → pub_channel hs h sb ev c cs = Ok cs.
Proof. intros H. unfold pub_channel. by rewrite H, elements_empty. Qed.

(** X1.  While [run] is looping, a Publish whose named channels all lack
    subscribers (no set under the name, or an empty one; in particular a
    Publish naming no channel at all) completes and leaves the whole state
    as it was. *)
Theorem publish_without_subscribers_changes_nothing w cl ev :
  running w = true →
  (∀ c, c ∈ cl → default ∅ (subs w !! c) = ∅) →
  run (MsgPub cl ev) w = Ok w.
Proof.
  intros Hrun Hnone.
  assert (foldM (pub_channel (handlers w) (heap w) (subs w) ev) cl (chans w)
          = Ok (chans w)) as Hloop.
  { induction cl as [|c cl IH]; [done|]. cbn [foldM].
    rewrite pub_channel_empty by (apply Hnone; left).
    cbn. apply IH. intros c' Hc'. apply Hnone. by right. }
  unfold run, run_pub. rewrite Hrun, Hloop. simpl.
  destruct w; simpl in *. by subst.
Qed.

(** X2.  In a reachable state with [run] looping, an Unsubscribe
    completes, and a Publish to any channels, the subscription's own
    included, that [run] handles to its end after it leaves the delivery
    path of the subscription exactly as it was. *)
Theorem unsubscribed_gets_no_publish tr w p s cl ev :
  exec tr NewServer = Ok w → running w = true → heap w !! p = Some s →
  ∃ w1, run (MsgUnregister p) w = Ok w1 ∧
    ∀ w2, run (MsgPub cl ev) w1 = Ok w2 →
          chans w2 !! out s = chans w !! out s.
Proof.
  intros Hreach Hrun Hp. pose proof (reachable_inv tr w Hreach) as Hinv.
  destruct (run_unregister_ok w p s Hp)
    as (w1 & H1 & Hh & Hc & _ & _ & Hrun1 & Hs1).
  assert (Hinv1 : inv w1) by by eapply run_unregister_inv.
  rewrite Hrun in Hrun1.
  exists w1. split; [by unfold run; rewrite Hrun|].
  intros w2 H2. unfold run in H2. rewrite Hrun1 in H2.
  destruct (run_pub_ok w1 cl ev w2 H2) as (_ & _ & _ & _ & _ & Hc2).
  rewrite Hc2, Hc, hits_zero.
  { destruct (chans w !! out s); simpl; [|done]. by rewrite pushed_zero. }
  intros q t (c & X & _ & HX & Hq)%elem_of_pub_targets Ht Ho.
  rewrite Hh in Ht.
  assert (q = p) as -> by by apply (inv_fresh w Hinv q p t s).
  destruct (inv_subs w1 Hinv1 c X p HX Hq) as (s' & Hs' & Hch).
  rewrite Hh, Hp in Hs'. injection Hs' as <-.
  rewrite Hs1, decide_True in HX by done.
  destruct (subs w !! c) as [X0|]; [|done]. injection HX as <-.
  apply elem_of_difference in Hq as [_ Hq]. apply Hq. by apply elem_of_singleton.
Qed.





(** *** What no step does *)

Lemma only_appends_refl cs : only_appends cs cs.
Proof. intros c st Hst. exists st. by split_and!. Qed.

Lemma only_appends_trans cs1 cs2 cs3 :
  only_appends cs1 cs2 → only_appends cs2 cs3 → only_appends cs1 cs3.
Proof.
  intros H12 H23 c st1 H1.
  destruct (H12 c st1 H1) as (st2 & H2 & Hp12 & Hc12).
  destruct (H23 c st2 H2) as (st3 & H3 & Hp23 & Hc23).
  exists st3. split_and!; [done|by etrans|auto].
Qed.

Lemma chan_send_only_appends hs o ev c cs cs' :
  chan_send hs o ev c cs = Ok cs' → only_appends cs cs'.
Proof.
  intros (st & Hst & Ho & ->)%chan_send_Ok c' st' Hst'.
  destruct (decide (c = c')) as [<-|Hne].
  - rewrite lookup_insert_eq. eexists. split; [done|]. simpl.
    rewrite Hst in Hst'. injection Hst' as <-.
    split; [by apply prefix_app_r|congruence].
  - rewrite lookup_insert_ne by done. exists st'. by split_and!.
Qed.

Lemma chan_close_only_appends c cs cs' :
  chan_close c cs = Ok cs' → only_appends cs cs'.
Proof.
  unfold chan_close. destruct (cs !! c) as [st|] eqn:Hst; [|done].
  destruct (closed st); [done|]. intros [= <-] c' st' Hst'.
  destruct (decide (c = c')) as [<-|Hne].
  - rewrite lookup_insert_eq. eexists. split; [done|]. simpl.
    rewrite Hst in Hst'. injection Hst' as <-. by split.
  - rewrite lookup_insert_ne by done. exists st'. by split_and!.
Qed.

Lemma step_only_appends a w w' :
  step a w = Ok w' → only_appends (chans w) (chans w').
Proof.
  intros Hstep. destruct a as [c lid|m|i|q|q]; simpl in Hstep;
    [|..|handler_frame Hstep; rewrite Hfc; apply only_appends_refl
     |handler_frame Hstep; rewrite Hfc; apply only_appends_refl].
  - injection Hstep as <-. simpl. intros c' st Hst.
    rewrite lookup_insert_ne; [exists st; by split_and!|].
    intros E. pose proof (is_fresh (dom (chans w))) as Hf.
    rewrite E in Hf. apply Hf, elem_of_dom. eauto.
  - unfold run in Hstep. destruct (running w); [|done].
    destruct m as [c repo|p|cl ev|p|].
    + injection Hstep as <-. apply only_appends_refl.
    + unfold run_unregister in Hstep. destruct (deref (heap w) p); [|done..].
      injection Hstep as <-. apply only_appends_refl.
    + unfold run_pub in Hstep.
      destruct (foldM _ cl (chans w)) as [cs'| |] eqn:E; [|done..].
      injection Hstep as <-. simpl. revert E.
      apply foldM_preserves; [apply only_appends_refl|apply only_appends_trans|].
      intros c x y _. unfold pub_channel.
      apply foldM_preserves; [apply only_appends_refl|apply only_appends_trans|].
      intros p x' y' _. unfold pub_one. destruct (deref _ p); [|done..].
      apply chan_send_only_appends.
    + unfold run_subs in Hstep. destruct (deref (heap w) p); [|done..].
      injection Hstep as <-. apply only_appends_refl.
    + unfold run_quit in Hstep.
      destruct (foldM _ _ (chans w)) as [cs'| |] eqn:E; [|done..].
      injection Hstep as <-. simpl. revert E.
      apply foldM_preserves; [apply only_appends_refl|apply only_appends_trans|].
      intros e x y _. unfold quit_channel.
      apply foldM_preserves; [apply only_appends_refl|apply only_appends_trans|].
      intros p x' y' _. unfold quit_one. destruct (deref _ p); [|done..].
      apply chan_close_only_appends.
  - apply replay_send_Ok in Hstep
      as (t & s & ev & st & _ & _ & _ & Hst & Hopen & _ & _ & _ & _ & -> & _).
    intros c' st' Hst'. destruct (decide (out s = c')) as [<-|Hne].
    + rewrite lookup_insert_eq. eexists. split; [done|]. simpl.
      rewrite Hst in Hst'. injection Hst' as <-.
      split; [by apply prefix_app_r|congruence].
    + rewrite lookup_insert_ne by done. exists st'. by split_and!.
Qed.

(** X5.  Whatever steps the system takes, every delivery path that exists
    stays, what it held stays at the front of what it holds afterwards in
    the same order (nothing delivered is dropped or reordered), and a path
    that was closed is never open again. *)
Theorem paths_only_grow tr w w' c st :
  exec tr w = Ok w' → chans w !! c = Some st →
  ∃ st', chans w' !! c = Some st' ∧ sent st `prefix_of` sent st' ∧
         (closed st = true → closed st' = true).
Proof.
  intros Hex. revert c st. change (only_appends (chans w) (chans w')).
  unfold exec in Hex. revert Hex.
  apply (foldM_preserves (λ x y, only_appends (chans x) (chans y)));
    [intros; apply only_appends_refl
    |intros ???; apply only_appends_trans
    |intros a x y _; apply step_only_appends].
Qed.

Lemma step_tables a w w' :
  step a w = Ok w' →
  dom (subs w) ⊆ dom (subs w') ∧ dom (repos w) ⊆ dom (repos w').
Proof.
  intros Hstep. destruct a as [c lid|m|i|q|q]; simpl in Hstep;
    [|..|handler_frame Hstep; by rewrite Hfs, Hfr
     |handler_frame Hstep; by rewrite Hfs, Hfr].
  - by injection Hstep as <-.
  - unfold run in Hstep. destruct (running w); [|done].
    destruct m as [c repo|p|cl ev|p|].
    + injection Hstep as <-. simpl. split; [done|].
      rewrite dom_insert. apply union_subseteq_r.
    + unfold run_unregister in Hstep.
      destruct (deref (heap w) p) as [s| |]; [|done..].
      injection Hstep as <-. simpl. split; [|done].
      destruct (subs w !! channel s) as [X|] eqn:HX; [|done].
      rewrite dom_insert. apply union_subseteq_r.
    + unfold run_pub in Hstep.
      destruct (foldM _ cl (chans w)); [|done..]. by injection Hstep as <-.
    + unfold run_subs in Hstep.
      destruct (deref (heap w) p) as [s| |]; [|done..].
      injection Hstep as <-. simpl. split; [|done].
      rewrite dom_insert.
      destruct (subs w !! channel s) as [X|] eqn:HX.
      * apply union_subseteq_r.
      * rewrite dom_insert. etrans; apply union_subseteq_r.
    + unfold run_quit in Hstep.
      destruct (foldM _ _ (chans w)); [|done..]. by injection Hstep as <-.
  - apply replay_send_Ok in Hstep as (?&?&?&?&?&?&?&?&?&?& Hs & Hr &?).
    by rewrite Hs, Hr.
Qed.

(** X6.  No step ever takes a channel out of either table: a repository
    registered for a channel can be replaced but never removed, and the
    subscriber set of a channel, once made, stays in the table (possibly
    empty) however many subscriptions leave. *)
Theorem tables_never_lose_a_channel tr w w' c :
  exec tr w = Ok w' →
  (is_Some (subs w !! c) → is_Some (subs w' !! c)) ∧
  (is_Some (repos w !! c) → is_Some (repos w' !! c)).
Proof.
  intros Hex. rewrite <- !elem_of_dom.
  cut (dom (subs w) ⊆ dom (subs w') ∧ dom (repos w) ⊆ dom (repos w')).
  { intros [H1 H2]. split; intros ?; [by apply H1|by apply H2]. }
  unfold exec in Hex. revert Hex.
  apply (foldM_preserves
           (λ x y, dom (subs x) ⊆ dom (subs y) ∧ dom (repos x) ⊆ dom (repos y))).
  - done.
  - intros x y z [? ?] [? ?]. split; by etrans.
  - intros a x y _. apply step_tables.
Qed.

(** X7.  Once [run] has returned it never handles a message again: every
    trace that runs to the end from a stopped server contains no receive
    by [run], and leaves both tables as they were and the server stopped. *)
Theorem stopped_server_stays_stopped tr w w' :
  running w = false → exec tr w = Ok w' →
  Forall (λ a, ∀ m, a ≠ Recv m) tr ∧
  subs w' = subs w ∧ repos w' = repos w ∧ running w' = false.
Proof.
  revert w. induction tr as [|a tr IH]; intros w Hstop Hex.
  - injection Hex as <-. by split_and!.
  - unfold exec in Hex. cbn [foldM] in Hex.
    destruct (step a w) as [w1| |] eqn:Hstep; [|done..]. cbn [obind] in Hex.
    assert (subs w1 = subs w ∧ repos w1 = repos w ∧ running w1 = false
            ∧ ∀ m, a ≠ Recv m) as (Hs & Hr & Hstop1 & Ha).
    { destruct a as [c lid|m|i|q|q]; simpl in Hstep.
      - injection Hstep as <-. by split_and!.
      - unfold run in Hstep. by rewrite Hstop in Hstep.
      - apply replay_send_Ok in Hstep as (?&?&?&?&?&?&?&?&?&?& Hs & Hr & Hrn &?).
        split_and!; [done..|congruence|done].
      - handler_frame Hstep. split_and!; [done..|congruence|done].
      - handler_frame Hstep. split_and!; [done..|congruence|done]. }
    destruct (IH w1 Hstop1 Hex) as (Hall & Hs' & Hr' & Hstop').
    split_and!; [by constructor|congruence..].
Qed.

(** *** Where the entries of a path come from *)

Lemma step_tasks_have_id a w w' :
  inv w → tasks_have_id (tasks w) (heap w) → step a w = Ok w' →
  tasks_have_id (tasks w') (heap w').
Proof.
  intros Hinv Hid Hstep i t s Ht Hs.
  assert (Hback : ∀ t0, is_Some (tasks w !! i) → tasks w !! i = Some t0 →
            t_sub t0 = t_sub t → lastEventId s ≠ ""%string).
  { intros t0 _ Ht0 Hsub. destruct (inv_task w Hinv i t0 Ht0) as [s0 Hs0].
    pose proof (step_heap a w w' _ s0 Hstep Hs0) as Hs0'.
    rewrite Hsub, Hs in Hs0'. injection Hs0' as <-. by eapply Hid. }
  destruct a as [c lid|m|j|q|q]; simpl in Hstep;
    [|..|handler_frame Hstep; rewrite Hft in Ht; by eapply Hback
     |handler_frame Hstep; rewrite Hft in Ht; by eapply Hback].
  - injection Hstep as <-. simpl in Ht. by eapply Hback.
  - unfold run in Hstep. destruct (running w); [|done].
    destruct m as [c repo|p|cl ev|p|].
    + injection Hstep as <-. by eapply Hback.
    + unfold run_unregister in Hstep. destruct (deref (heap w) p); [|done..].
      injection Hstep as <-. by eapply Hback.
    + unfold run_pub in Hstep.
      destruct (foldM _ cl (chans w)); [|done..]. injection Hstep as <-.
      by eapply Hback.
    + destruct (heap w !! p) as [s0|] eqn:Hp;
        [|by unfold run_subs, deref in Hstep; rewrite Hp in Hstep].
      destruct (run_subs_ok w p s0 Hp) as (w1 & H1 & Hh & _ & _ & _ & _ & Htk).
      rewrite Hstep in H1. injection H1 as <-. rewrite Htk in Ht.
      destruct (decide (0 < String.length (lastEventId s0))) as [Hlen|];
        [|by eapply Hback].
      destruct (repos w !! channel s0) as [repo|]; [|by eapply Hback].
      apply lookup_app_Some in Ht as [Ht|[_ Ht]]; [by eapply Hback|].
      apply list_lookup_singleton_Some in Ht as [_ <-]. simpl in Hs.
      rewrite Hh, Hp in Hs. injection Hs as <-.
      by apply length_pos_nonempty.
    + unfold run_quit in Hstep.
      destruct (foldM _ _ (chans w)); [|done..]. injection Hstep as <-.
      by eapply Hback.
  - apply replay_send_Ok in Hstep
      as (t0 & _ & _ & _ & Ht0 & _ & _ & _ & _ & _ & _ & _ & _ & _ & Htk).
    rewrite Htk in Ht. destruct (decide (j = i)) as [->|Hne].
    + rewrite list_lookup_insert_eq in Ht by by eapply lookup_lt_Some.
      injection Ht as <-. by eapply (Hback t0).
    + rewrite list_lookup_insert_ne in Ht by done. by eapply Hback.
Qed.

Lemma exec_tasks_have_id tr w w' :
  inv w → tasks_have_id (tasks w) (heap w) → exec tr w = Ok w' →
  tasks_have_id (tasks w') (heap w').
Proof.
  intros Hinv Hid Hex.
  cut (inv w' ∧ tasks_have_id (tasks w') (heap w')); [by intros [_ ?]|].
  unfold exec in Hex. revert Hex Hinv Hid.
  intros Hex Hinv Hid.
  refine (foldM_preserves
            (λ x y, inv x ∧ tasks_have_id (tasks x) (heap x) →
                    inv y ∧ tasks_have_id (tasks y) (heap y))
            step tr w w' _ _ _ Hex (conj Hinv Hid)); [auto|auto|].
  intros a x y _ Hs [Hx Hx']. split; [by eapply step_inv|by eapply step_tasks_have_id].
Qed.

(** X8.  In a state reached from a new server, every replay goroutine
    belongs to an existing subscription with a non-empty last id; what it
    has put on that subscription's delivery path is, in order, the first
    events its repository yields for that subscription's own channel and
    last id, one for each send it has made; and it has put nothing on any
    other path. *)
Theorem replay_goroutines_keep_to_their_path tr w i t :
  exec tr NewServer = Ok w → tasks w !! i = Some t →
  ∃ s, heap w !! t_sub t = Some s ∧ lastEventId s ≠ ""%string ∧
    ∀ c st, chans w !! c = Some st →
      replayed i (sent st)
      = if decide (out s = c)
        then take (t_sent t) (Replay (t_repo t) (channel s) (lastEventId s))
        else [].
Proof.
  intros Hreach Ht. pose proof (reachable_inv tr w Hreach) as Hinv.
  destruct (inv_task w Hinv i t Ht) as [s Hs]. exists s. split_and!.
  - done.
  - eapply (exec_tasks_have_id tr NewServer w inv_NewServer); [|done..].
    intros j t' s' Hj. by destruct j.
  - intros c st Hst. rewrite (inv_log w Hinv c st i Hst).
    unfold expected. by rewrite Ht, Hs.
Qed.

Lemma replays_of_app p (l1 l2 : list (task Event)) :
  replays_of p (l1 ++ l2) = replays_of p l1 + replays_of p l2.
Proof. unfold replays_of. by rewrite filter_app, length_app. Qed.

Lemma replays_of_insert p (l : list (task Event)) i t t' :
  l !! i = Some t → t_sub t' = t_sub t →
  replays_of p (<[i := t']> l) = replays_of p l.
Proof.
  intros Hi Hsub. rewrite <- (take_drop_middle l i t Hi) at 2.
  rewrite insert_take_drop by by eapply lookup_lt_Some.
  rewrite !replays_of_app. f_equal.
  change (?x :: ?k) with ([x] ++ k). rewrite !replays_of_app. f_equal.
  unfold replays_of. rewrite !filter_cons, !filter_nil, Hsub.
  by destruct (decide (t_sub t = p)).
Qed.

Lemma step_replays a w w' p :
  step a w = Ok w' →
  replays_of p (tasks w')
  ≤ replays_of p (tasks w) + (if is_subscribe p a then 1 else 0).
Proof.
  intros Hstep. destruct a as [c lid|m|j|q|q]; simpl in Hstep; simpl;
    [|..|handler_frame Hstep; rewrite Hft; lia
     |handler_frame Hstep; rewrite Hft; lia].
  - injection Hstep as <-. simpl. lia.
  - unfold run in Hstep. destruct (running w); [|done].
    destruct m as [c repo|q|cl ev|q|].
    + injection Hstep as <-. simpl. lia.
    + unfold run_unregister in Hstep. destruct (deref (heap w) q); [|done..].
      injection Hstep as <-. simpl. lia.
    + unfold run_pub in Hstep.
      destruct (foldM _ cl (chans w)); [|done..]. injection Hstep as <-.
      simpl. lia.
    + unfold run_subs in Hstep.
      destruct (deref (heap w) q) as [s| |]; [|done..].
      injection Hstep as <-. simpl.
      destruct (decide _); [|lia].
      destruct (repos w !! channel s); [|lia].
      rewrite replays_of_app. unfold replays_of at 2.
      rewrite filter_cons, filter_nil. simpl.
      destruct (decide (q = p)) as [->|Hne].
      * rewrite bool_decide_eq_true_2 by done. simpl. lia.
      * simpl. lia.
    + unfold run_quit in Hstep.
      destruct (foldM _ _ (chans w)); [|done..]. injection Hstep as <-.
      simpl. lia.
  - apply replay_send_Ok in Hstep
      as (t0 & _ & _ & _ & Ht0 & _ & _ & _ & _ & _ & _ & _ & _ & _ & Htk).
    rewrite Htk, (replays_of_insert p _ j t0) by done. lia.
Qed.

(** X9.  The replay goroutines started for a subscription are never more
    than the Subscribes of it that [run] has handled: a subscription that
    is handed to the server once gets at most one replay. *)
Theorem at_most_one_replay_per_subscribe tr w p :
  exec tr NewServer = Ok w →
  replays_of p (tasks w) ≤ subscribes_of p tr.
Proof.
  change (exec tr NewServer = Ok w →
          replays_of p (tasks w)
          ≤ replays_of p (tasks (NewServer (Event:=Event))) + subscribes_of p tr).
  generalize (NewServer (Event:=Event)). revert w.
  induction tr as [|a tr IH]; intros w w0 Hex.
  - injection Hex as <-. lia.
  - unfold exec in Hex. cbn [foldM] in Hex.
    destruct (step a w0) as [w1| |] eqn:Hstep; [|done..]. cbn [obind] in Hex.
    pose proof (IH w w1 Hex) as H1. pose proof (step_replays a w0 w1 p Hstep) as H2.
    unfold subscribes_of in *. rewrite filter_cons.
    destruct (is_subscribe p a); simpl in *; lia.
Qed.

(** X10.  In a state reached from a new server, two subscriptions never
    share a delivery path, every subscription's path exists, and as long
    as [run] is looping no path is closed. *)
Theorem every_subscription_has_its_own_open_path tr w p s :
  exec tr NewServer = Ok w → heap w !! p = Some s →
  (∀ q t, heap w !! q = Some t → out t = out s → q = p) ∧
  ∃ st, chans w !! out s = Some st ∧ (running w = true → closed st = false).
Proof.
  intros Hreach Hp. pose proof (reachable_inv tr w Hreach) as Hinv. split.
  - intros q t Hq Ho. by apply (inv_fresh w Hinv q p t s).
  - destruct (inv_alloc w Hinv p s Hp) as [st Hst]. exists st.
    split; [done|]. intros Hrun. by eapply inv_open.
Qed.

(** X11.  While [run] is looping, the Subscribe and then the Unsubscribe
    of a subscription that was not in the table bring the table back to
    what it was, except that its channel now has a (possibly empty) set;
    no path and no repository is touched; and a replay goroutine started by
    the Subscribe is still there after the Unsubscribe. *)
Theorem subscribe_unsubscribe_round_trip w p s :
  running w = true → heap w !! p = Some s →
  p ∉ default ∅ (subs w !! channel s) →
  ∃ w1 w2, run (MsgSubs p) w = Ok w1 ∧ run (MsgUnregister p) w1 = Ok w2 ∧
    subs w2 = <[channel s := default ∅ (subs w !! channel s)]> (subs w) ∧
    chans w2 = chans w ∧ repos w2 = repos w ∧ heap w2 = heap w ∧
    tasks w2 = tasks w1.
Proof.
  intros Hrun Hp Hnot.
  destruct (run_subs_ok w p s Hp) as (w1 & H1 & Hh1 & Hc1 & Hr1 & Hrun1 & Hs1 & _).
  assert (Hp1 : heap w1 !! p = Some s) by by rewrite Hh1.
  destruct (run_unregister_ok w1 p s Hp1)
    as (w2 & H2 & Hh2 & Hc2 & Hr2 & Ht2 & Hrun2 & Hs2).
  exists w1, w2. split; [by unfold run; rewrite Hrun|].
  split; [by unfold run; rewrite Hrun1, Hrun|].
  split_and!; [|congruence..].
  apply map_eq. intros c. rewrite Hs2, Hs1, lookup_insert.
  destruct (decide (channel s = c)) as [<-|]; [|done]. simpl. f_equal.
  apply set_eq. intros q. rewrite elem_of_difference, elem_of_union, !elem_of_singleton.
  split; [tauto|]. intros Hq. split; [tauto|]. intros ->. done.
Qed.

(** *** The tables and the paths as functions of the trace *)

Lemma exec_snoc tr a w :
  exec (tr ++ [a]) w = (w1 ←! exec tr w; step a w1).
Proof.
  unfold exec. rewrite foldM_app. destruct (foldM step tr w) as [w1| |]; [|done..].
  simpl. by destruct (step a w1).
Qed.

Lemma step_repos a w w' c :
  step a w = Ok w' →
  repos w' !! c = last_registered c (repos w !! c) [a].
Proof.
  intros Hstep. destruct a as [c0 lid|m|i|q|q]; simpl in Hstep; simpl;
    [|..|handler_frame Hstep; by rewrite Hfr
     |handler_frame Hstep; by rewrite Hfr].
  - by injection Hstep as <-.
  - unfold run in Hstep. destruct (running w); [|done].
    destruct m as [c0 repo|q|cl ev|q|].
    + injection Hstep as <-. simpl. rewrite lookup_insert.
      by destruct (decide (c0 = c)).
    + unfold run_unregister in Hstep. destruct (deref (heap w) q); [|done..].
      by injection Hstep as <-.
    + unfold run_pub in Hstep.
      destruct (foldM _ cl (chans w)); [|done..]. by injection Hstep as <-.
    + unfold run_subs in Hstep. destruct (deref (heap w) q); [|done..].
      by injection Hstep as <-.
    + unfold run_quit in Hstep.
      destruct (foldM _ _ (chans w)); [|done..]. by injection Hstep as <-.
  - apply replay_send_Ok in Hstep as (?&?&?&?&?&?&?&?&?&?&?& Hr &?).
    by rewrite Hr.
Qed.

(** X12.  The repository table is a function of the registrations
    handled: after any trace, a channel has the repository of the last
    Register for it in the trace, or, when the trace has none, what it had
    at the start (nothing, on a new server). *)
Theorem repository_is_the_last_registered tr w w' c :
  exec tr w = Ok w' →
  repos w' !! c = last_registered c (repos w !! c) tr.
Proof.
  revert w. induction tr as [|a tr IH]; intros w Hex.
  - by injection Hex as <-.
  - unfold exec in Hex. cbn [foldM] in Hex.
    destruct (step a w) as [w1| |] eqn:Hstep; [|done..]. cbn [obind] in Hex.
    rewrite (IH w1 Hex), (step_repos a w w1 c Hstep). done.
Qed.

Lemma live_app (l1 l2 : list (origin * Event)) : live (l1 ++ l2) = live l1 ++ live l2.
Proof. apply omap_app. Qed.

Lemma live_replicate n ev : live (replicate n (Live, ev)) = replicate n ev.
Proof. induction n as [|n IH]; [done|]. simpl. by f_equal. Qed.

Lemma member_after_snoc p b tr a :
  member_after p b (tr ++ [a]) = next_member p (member_after p b tr) a.
Proof. unfold member_after. by rewrite foldl_app. Qed.

Lemma published_to_snoc p c b tr a :
  published_to p c b (tr ++ [a])
  = published_to p c b tr
    ++ (if member_after p b tr then contribution c a else []).
Proof.
  revert b. induction tr as [|a0 tr IH]; intros b; simpl.
  - by rewrite app_nil_r.
  - by rewrite IH, app_assoc.
Qed.

(** A subscription that does not exist yet has not been subscribed. *)
Lemma not_built_not_subscribed tr w w' p c :
  exec tr w = Ok w' → heap w' !! p = None →
  member_after p false tr = false ∧ published_to p c false tr = [].
Proof.
  revert w. induction tr as [|a tr IH]; intros w Hex Hnone; [done|].
  unfold exec in Hex. cbn [foldM] in Hex.
  destruct (step a w) as [w1| |] eqn:Hstep; [|done..]. cbn [obind] in Hex.
  destruct (IH w1 Hex Hnone) as [IH1 IH2].
  assert (heap w1 !! p = None) as Hnone1.
  { destruct (heap w1 !! p) as [s|] eqn:E; [|done].
    by rewrite (exec_heap tr w1 w' p s Hex E) in Hnone. }
  assert (next_member p false a = false) as Hnext.
  { destruct a as [c0 lid|[c0 repo|q|cl ev|q|]|i|q|q]; simpl; try done;
      destruct (decide (q = p)) as [->|]; try done.
    destruct (heap w !! p) as [s|] eqn:E.
    - by rewrite (step_heap _ w w1 p s Hstep E) in Hnone1.
    - simpl in Hstep. unfold run in Hstep. destruct (running w); [|done].
      unfold run_subs, deref in Hstep. by rewrite E in Hstep. }
  unfold member_after. simpl. rewrite Hnext. by split.
Qed.

(** The only step that builds a subscription is the handler's. *)
Lemma step_builds a w w' p s :
  step a w = Ok w' → heap w !! p = None → heap w' !! p = Some s →
  subs w' = subs w ∧ chans w !! out s = None ∧
  chans w' !! out s = Some {| closed := false; sent := [] |} ∧
  ∀ c b, next_member p b a = b ∧ contribution c a = [].
Proof.
  intros Hstep Hnone Hs. destruct a as [c0 lid|m|i|q|q]; simpl in Hstep;
    [|..|handler_frame Hstep; rewrite Hfh in Hs; congruence
     |handler_frame Hstep; rewrite Hfh in Hs; congruence].
  - injection Hstep as <-. simpl in *. rewrite lookup_insert in Hs.
    destruct (decide (fresh (dom (heap w)) = p)); [|congruence].
    injection Hs as <-. simpl. split_and!; [done| | |done].
    + apply not_elem_of_dom, is_fresh.
    + apply lookup_insert_eq.
  - unfold run in Hstep. destruct (running w); [|done].
    destruct m as [c0 repo|q|cl ev|q|].
    + injection Hstep as <-. simpl in Hs. congruence.
    + unfold run_unregister in Hstep. destruct (deref (heap w) q); [|done..].
      injection Hstep as <-. simpl in Hs. congruence.
    + unfold run_pub in Hstep.
      destruct (foldM _ cl (chans w)); [|done..]. injection Hstep as <-.
      simpl in Hs. congruence.
    + unfold run_subs in Hstep. destruct (deref (heap w) q); [|done..].
      injection Hstep as <-. simpl in Hs. congruence.
    + unfold run_quit in Hstep.
      destruct (foldM _ _ (chans w)); [|done..]. injection Hstep as <-.
      simpl in Hs. congruence.
  - apply replay_send_Ok in Hstep as (?&?&?&?&?&?&?&?&?& Hh &?).
    rewrite Hh in Hs. congruence.
Qed.

(** A subscription of a reachable state is visited by a Publish as often
    as its channel is named if it is in its channel's set, and not at all
    otherwise. *)
Lemma hits_pub_member w cl p s :
  inv w → heap w !! p = Some s →
  hits (heap w) (out s) (pub_targets (subs w) cl)
  = if bool_decide (p ∈ default ∅ (subs w !! channel s))
    then named (channel s) cl else 0.
Proof.
  intros Hinv Hp. case_bool_decide as Hmem.
  - destruct (subs w !! channel s) as [X|] eqn:HX; [|by apply elem_of_empty in Hmem].
    by apply (hits_pub_targets w cl (channel s) X p s).
  - apply hits_zero. intros q t (c & X & _ & HX & Hq)%elem_of_pub_targets Ht Ho.
    assert (q = p) as -> by by apply (inv_fresh w Hinv q p t s).
    destruct (inv_subs w Hinv c X p HX Hq) as (s' & Hs' & Hc).
    rewrite Hp in Hs'. injection Hs' as <-. apply Hmem. subst c. by rewrite HX.
Qed.

Lemma step_routing a w w' p s :
  inv w → heap w !! p = Some s → step a w = Ok w' →
  (p ∈ default ∅ (subs w' !! channel s)
   ↔ next_member p (bool_decide (p ∈ default ∅ (subs w !! channel s))) a = true) ∧
  (∀ st', chans w' !! out s = Some st' →
     ∃ st, chans w !! out s = Some st ∧
       live (sent st')
       = live (sent st)
         ++ if bool_decide (p ∈ default ∅ (subs w !! channel s))
            then contribution (channel s) a else []).
Proof.
  intros Hinv Hp Hstep.
  set (b := bool_decide (p ∈ default ∅ (subs w !! channel s))).
  assert (Hb : p ∈ default ∅ (subs w !! channel s) ↔ b = true)
    by (symmetry; apply bool_decide_eq_true).
  assert (Hsame : ∀ st', chans w !! out s = Some st' →
            ∃ st, chans w !! out s = Some st ∧ live (sent st') = live (sent st) ++ []).
  { intros st' Hst'. exists st'. by rewrite app_nil_r. }
  assert (Hnil : (if b then @nil Event else []) = []) by by destruct b.
  destruct a as [c0 lid|m|i|q|q]; simpl in Hstep; simpl;
    [|..|handler_frame Hstep; rewrite Hfs, Hfc, Hnil; by split
     |handler_frame Hstep; rewrite Hfs, Hfc, Hnil; by split].
  - injection Hstep as <-. simpl. split; [done|]. rewrite Hnil.
    intros st'. rewrite lookup_insert_ne; [apply Hsame|].
    intros E. destruct (inv_alloc w Hinv p s Hp) as [st Hst].
    pose proof (is_fresh (dom (chans w))) as Hf. rewrite E in Hf.
    apply Hf, elem_of_dom. eauto.
  - unfold run in Hstep. destruct (running w) eqn:Hrun; [|done].
    destruct m as [c0 repo|q|cl ev|q|].
    + injection Hstep as <-. simpl. rewrite Hnil. by split.
    + destruct (heap w !! q) as [t|] eqn:Hq;
        [|by unfold run_unregister, deref in Hstep; rewrite Hq in Hstep].
      destruct (run_unregister_ok w q t Hq) as (w1 & H1 & _ & Hc & _ & _ & _ & Hs).
      rewrite Hstep in H1. injection H1 as <-. rewrite Hc, Hnil.
      split; [|done]. rewrite Hs.
      destruct (decide (q = p)) as [->|Hne].
      * rewrite Hp in Hq. injection Hq as <-. rewrite decide_True by done.
        split; [|done]. destruct (subs w !! channel s); simpl.
        -- rewrite elem_of_difference, elem_of_singleton. tauto.
        -- by intros ?%elem_of_empty.
      * rewrite <- Hb. destruct (decide (channel t = channel s)); [|done].
        destruct (subs w !! channel s); simpl; [|done].
        rewrite elem_of_difference, elem_of_singleton. intuition congruence.
    + destruct (run_pub_ok w cl ev w' Hstep) as (_ & Hs & _ & _ & _ & Hc).
      rewrite Hs. split; [done|].
      intros st'. rewrite Hc, (hits_pub_member w cl p s Hinv Hp). fold b.
      destruct (chans w !! out s) as [st|]; [|done]. intros [= <-].
      exists st. split; [done|]. simpl. rewrite live_app, live_replicate.
      destruct b; [done|]. simpl. by rewrite app_nil_r.
    + destruct (heap w !! q) as [t|] eqn:Hq;
        [|by unfold run_subs, deref in Hstep; rewrite Hq in Hstep].
      destruct (run_subs_ok w q t Hq) as (w1 & H1 & _ & Hc & _ & _ & Hs & _).
      rewrite Hstep in H1. injection H1 as <-. rewrite Hc, Hnil.
      split; [|done]. rewrite Hs.
      destruct (decide (q = p)) as [->|Hne].
      * rewrite Hp in Hq. injection Hq as <-. rewrite decide_True by done.
        split; [done|]. intros _. simpl.
        by apply elem_of_union_l, elem_of_singleton.
      * rewrite <- Hb. destruct (decide (channel t = channel s)); [|done].
        simpl. rewrite elem_of_union, elem_of_singleton. intuition congruence.
    + destruct (run_quit_ok w Hinv Hrun) as (w1 & H1 & _ & Hs & _ & _ & _ & Hc).
      rewrite Hstep in H1. injection H1 as <-. rewrite Hs, Hnil. split; [done|].
      intros st'. rewrite Hc. destruct (chans w !! out s) as [st|]; [|done].
      intros [= <-]. exists st. by rewrite app_nil_r.
  - apply replay_send_Ok in Hstep
      as (t & s0 & ev & st & _ & _ & _ & Hst & _ & _ & Hs & _ & _ & Hc & _).
    rewrite Hs, Hc, Hnil. split; [done|]. intros st'. rewrite lookup_insert.
    destruct (decide (out s0 = out s)) as [E|]; [|apply Hsame].
    intros [= <-]. exists st. rewrite <- E. split; [done|]. simpl.
    rewrite live_app. done.
Qed.

Lemma trace_routing tr :
  ∀ w p s, exec tr NewServer = Ok w → heap w !! p = Some s →
    (p ∈ default ∅ (subs w !! channel s) ↔ member_after p false tr = true) ∧
    (∀ st, chans w !! out s = Some st →
       live (sent st) = published_to p (channel s) false tr).
Proof.
  induction tr as [|a tr IH] using rev_ind; intros w p s Hex Hp.
  { injection Hex as <-. simpl in Hp. by rewrite lookup_empty in Hp. }
  rewrite exec_snoc in Hex.
  destruct (exec tr NewServer) as [w1| |] eqn:Hex1; [|done..]. cbn [obind] in Hex.
  pose proof (reachable_inv tr w1 Hex1) as Hinv1.
  rewrite member_after_snoc, published_to_snoc.
  destruct (heap w1 !! p) as [s1|] eqn:Hp1.
  - assert (s1 = s) as ->.
    { pose proof (step_heap a w1 w p s1 Hex Hp1). congruence. }
    destruct (IH w1 p s eq_refl Hp1) as [IHm IHl].
    destruct (step_routing a w1 w p s Hinv1 Hp1 Hex) as [Hm Hl].
    assert (bool_decide (p ∈ default ∅ (subs w1 !! channel s))
            = member_after p false tr) as Hb.
    { destruct (member_after p false tr).
      - by apply bool_decide_eq_true, IHm.
      - apply bool_decide_eq_false. rewrite IHm. done. }
    rewrite Hb in Hm, Hl. split; [done|].
    intros st Hst. destruct (Hl st Hst) as (st1 & Hst1 & ->).
    by rewrite (IHl st1 Hst1).
  - destruct (step_builds a w1 w p s Hex Hp1 Hp) as (Hs & _ & Hnew & Hfix).
    destruct (not_built_not_subscribed tr NewServer w1 p (channel s) Hex1 Hp1)
      as [-> ->].
    destruct (Hfix (channel s) false) as [-> _]. split.
    + split; [|done]. rewrite Hs. intros Hin.
      destruct (subs w1 !! channel s) as [X|] eqn:HX; [|by apply elem_of_empty in Hin].
      destruct (inv_subs w1 Hinv1 _ X p HX Hin) as (? & ? & _). congruence.
    + intros st. rewrite Hnew. by intros [= <-].
Qed.

(** X13.  The routing table is a function of the Subscribes and
    Unsubscribes handled: in a state reached from a new server, a
    subscription is in the table (under some channel) exactly when the
    trace has a Subscribe of it with no Unsubscribe of it afterwards. *)
Theorem in_table_iff_last_was_subscribe tr w p :
  exec tr NewServer = Ok w →
  (∃ c X, subs w !! c = Some X ∧ p ∈ X) ↔ member_after p false tr = true.
Proof.
  intros Hreach. pose proof (reachable_inv tr w Hreach) as Hinv.
  destruct (heap w !! p) as [s|] eqn:Hp.
  - destruct (trace_routing tr w p s Hreach Hp) as [<- _]. split.
    + intros (c & X & HX & Hin).
      destruct (inv_subs w Hinv c X p HX Hin) as (s' & Hs' & <-).
      rewrite Hp in Hs'. injection Hs' as <-. by rewrite HX.
    + intros Hin. destruct (subs w !! channel s) as [X|] eqn:HX; [eauto|].
      by apply elem_of_empty in Hin.
  - destruct (not_built_not_subscribed tr NewServer w p ""%string Hreach Hp)
      as [-> _].
    split; [|done]. intros (c & X & HX & Hin).
    destruct (inv_subs w Hinv c X p HX Hin) as (? & ? & _). congruence.
Qed.

(** X14.  In a state reached from a new server, the live events on the
    delivery path of a subscription are exactly, in order and with their
    multiplicity, the events of the Publishes in the trace that named the
    subscription's channel and were handled while it was subscribed. *)
Theorem live_path_is_what_was_published_while_subscribed tr w p s st :
  exec tr NewServer = Ok w → heap w !! p = Some s →
  chans w !! out s = Some st →
  live (sent st) = published_to p (channel s) false tr.
Proof.
  intros Hreach Hp Hst.
  destruct (trace_routing tr w p s Hreach Hp) as [_ Hl]. by apply Hl.
Qed.

(** *** A handler that has left *)

Lemma step_left a w w' c st :
  inv w → step a w = Ok w' →
  handlers w !! c = Some Left → chans w !! c = Some st →
  handlers w' !! c = Some Left ∧
  ∃ st', chans w' !! c = Some st' ∧ sent st' = sent st.
Proof.
  intros Hinv Hstep Hleft Hst.
  destruct a as [c0 lid|m|i|q|q]; simpl in Hstep.
  - injection Hstep as <-. simpl.
    assert (fresh (dom (chans w)) ≠ c) as Hne.
    { intros E. pose proof (is_fresh (dom (chans w))) as Hf.
      rewrite E in Hf. apply Hf, elem_of_dom. eauto. }
    rewrite !lookup_insert_ne by done. eauto.
  - rewrite (run_handlers m w w' Hstep). split; [done|].
    unfold run in Hstep. destruct (running w) eqn:Hrun; [|done].
    destruct m as [c0 repo|q|cl ev|q|].
    + injection Hstep as <-. eauto.
    + destruct (heap w !! q) as [t|] eqn:Hq;
        [|by unfold run_unregister, deref in Hstep; rewrite Hq in Hstep].
      destruct (run_unregister_ok w q t Hq) as (w1 & H1 & _ & Hc & _).
      rewrite Hstep in H1. injection H1 as <-. rewrite Hc. eauto.
    + destruct (run_pub_ok w cl ev w' Hstep) as (_ & _ & _ & _ & _ & Hc).
      destruct (run_pub_receiving w cl ev w' Hstep) as [_ Hrecv].
      rewrite Hc, Hst, hits_zero;
        [eexists; split; [done|]; simpl; by rewrite app_nil_r|].
      intros p t Hp Ht Ho. destruct (Hrecv p Hp) as (t' & Ht' & Hr).
      congruence.
    + destruct (heap w !! q) as [t|] eqn:Hq;
        [|by unfold run_subs, deref in Hstep; rewrite Hq in Hstep].
      destruct (run_subs_ok w q t Hq) as (w1 & H1 & _ & Hc & _).
      rewrite Hstep in H1. injection H1 as <-. rewrite Hc. eauto.
    + destruct (run_quit_ok w Hinv Hrun) as (w1 & H1 & _ & _ & _ & _ & _ & Hc).
      rewrite Hstep in H1. injection H1 as <-. rewrite Hc, Hst. simpl. eauto.
  - destruct (replay_send_receiving i w w' Hstep) as (Hhs & t & s & Ht & Hs & Hr).
    apply replay_send_Ok in Hstep
      as (t' & s' & ev & st0 & Ht' & Hs' & _ & _ & _ & _ & _ & _ & _ & Hc & _).
    assert (t' = t) as -> by congruence.
    assert (s' = s) as -> by congruence.
    rewrite Hhs, Hc. split; [done|].
    rewrite lookup_insert_ne by congruence. eauto.
  - apply enter_loop_Ok in Hstep
      as (s & _ & Hat & _ & _ & Hc & _ & _ & _ & _ & Hhs).
    rewrite Hhs, Hc. rewrite lookup_insert_ne by congruence. eauto.
  - apply handler_moves_Ok in Hstep
      as (s & _ & Hat & _ & Hc & _ & _ & _ & _ & Hhs).
    rewrite Hhs, Hc. rewrite lookup_insert_ne by congruence. eauto.
Qed.

(** X21.  A handler that has left its loop never receives again: in
    whatever way the system goes on from a state the server has reached,
    the handler stays out of its loop and nothing more, neither a
    published nor a replayed event, gets onto its delivery path. *)
Theorem departed_handler_gets_nothing_more tr w tr' w' c st :
  exec tr NewServer = Ok w →
  handlers w !! c = Some Left → chans w !! c = Some st →
  exec tr' w = Ok w' →
  handlers w' !! c = Some Left ∧
  ∃ st', chans w' !! c = Some st' ∧ sent st' = sent st.
Proof.
  intros Hreach. pose proof (reachable_inv tr w Hreach) as Hinv.
  clear Hreach. revert w st Hinv.
  induction tr' as [|a tr' IH]; intros w st Hinv Hleft Hst Hex.
  - injection Hex as <-. eauto.
  - unfold exec in Hex. cbn [foldM] in Hex.
    destruct (step a w) as [w1| |] eqn:Hstep; [|done..]. cbn [obind] in Hex.
    destruct (step_left a w w1 c st Hinv Hstep Hleft Hst)
      as (Hleft1 & st1 & Hst1 & <-).
    apply (IH w1 st1); [by eapply step_inv|done..].
Qed.
End dispatcher_more.

(** * Properties of [Handler] *)

Section handler_more.
Context {Event : Type}.
Implicit Types (ins : list (selected Event)) (es : list (effect Event)).
Implicit Types (wr : writer) (h : gmap string (list string)).
Implicit Types (a : bool) (c lid : string) (p : ptr).

Lemma server_actions_app es1 es2 :
  server_actions (es1 ++ es2) = server_actions es1 ++ server_actions es2.
Proof. apply omap_app. Qed.

Lemma written_app es1 es2 : written (es1 ++ es2) = written es1 ++ written es2.
Proof. apply omap_app. Qed.

Lemma flushes_app es1 es2 : flushes (es1 ++ es2) = flushes es1 + flushes es2.
Proof. unfold flushes. by rewrite filter_app, length_app. Qed.

Lemma headers_after_app es1 es2 h :
  headers_after (es1 ++ es2) h = headers_after es2 (headers_after es1 h).
Proof. apply foldl_app. Qed.

(** The effects before the type assertions. *)
Lemma handler_pre_facts a c lid p :
  server_actions (handler_pre (Event:=Event) a c lid p)
  = [NewSub c lid; Subscribe p] ∧
  written (handler_pre (Event:=Event) a c lid p) = [] ∧
  flushes (handler_pre (Event:=Event) a c lid p) = 0.
Proof. by destruct a. Qed.


Lemma handler_loop_output p ins :
  written (handler_loop p ins).1 = good_prefix ins ∧
  flushes (handler_loop p ins).1 = length (good_prefix ins) ∧
  headers_after (handler_loop p ins).1 = id.
Proof.
  induction ins as [|[| |ev [|]] ins IH]; simpl; try done.
  destruct IH as (-> & IH2 & IH3). split_and!; [done| |done].
  unfold flushes in *. rewrite !filter_cons. simpl. by rewrite IH2.
Qed.



Lemma flushed_after_each_cons (e : effect Event) es :
  (∀ ev, e ≠ Encode ev false) → flushed_after_each es →
  flushed_after_each (e :: es).
Proof.
  intros He Hes es1 ev es2 E. destruct es1 as [|e1 es1]; simpl in E.
  - injection E as -> _. by destruct (He ev).
  - injection E as _ E. by eapply Hes.
Qed.

Lemma handler_loop_flushed p ins : flushed_after_each (handler_loop p ins).1.
Proof.
  induction ins as [|[| |ev [|]] ins IH]; simpl; intros es1 ev' es2 E.
  - by destruct es1.
  - destruct es1 as [|? [|? ?]]; done.
  - destruct es1 as [|? [|? ?]]; done.
  - destruct es1 as [|? [|? [|? ?]]]; done.
  - destruct es1 as [|e1 es1]; simpl in E.
    + injection E as <- <-. eauto.
    + injection E as <- E. destruct es1 as [|e2 es1]; simpl in E; [done|].
      injection E as <- E. by eapply IH.
Qed.

(** X16.  With a writer that can flush and notify, what [Handler] encodes
    without error is exactly, and in order, the events it received before
    the first disconnect, closure of its path or encoding failure; it
    flushes once before the first event and once right after each event it
    encoded, and not otherwise. *)
Theorem handler_writes_what_it_receives a c wr lid p ins :
  is_flusher wr = true → is_close_notifier wr = true →
  written (Handler a c wr lid p ins).1 = good_prefix ins ∧
  flushes (Handler a c wr lid p ins).1 = 1 + length (good_prefix ins) ∧
  flushed_after_each (Handler a c wr lid p ins).1.
Proof.
  intros Hf Hn.
  destruct (handler_loop_output p ins) as (Hw & Hfl & _).
  destruct (handler_pre_facts a c lid p) as (_ & Hw0 & Hfl0).
  unfold Handler. rewrite Hf, Hn. cbn [fst snd].
  change (Flush :: Do (Enter p) :: ?l)
    with ([Flush (Event:=Event); Do (Enter p)] ++ l).
  split_and!.
  - by rewrite !written_app, Hw0, Hw.
  - by rewrite !flushes_app, Hfl0, Hfl.
  - unfold handler_pre.
    destruct a; simpl; repeat (apply flushed_after_each_cons; [done|]);
      apply handler_loop_flushed.
Qed.

Lemma handler_loop_stops p ins more :
  (handler_loop p ins).2 ≠ Selecting →
  handler_loop p (ins ++ more) = handler_loop p ins.
Proof.
  induction ins as [|[| |ev [|]] ins IH]; simpl; try done.
  intros Hr. by rewrite IH.
Qed.

(** X17.  Once [Handler] has returned or panicked, or is in its send on
    [srv.unregister], nothing that its select could still get makes any
    difference: it consumes no further event and does nothing more. *)
Theorem handler_consumes_nothing_after_its_end a c wr lid p ins more :
  (Handler a c wr lid p ins).2 ≠ Selecting →
  Handler a c wr lid p (ins ++ more) = Handler a c wr lid p ins.
Proof.
  unfold Handler. destruct (is_flusher wr); [|done].
  destruct (is_close_notifier wr); [|done]. cbn [snd]. intros Hend.
  by rewrite handler_loop_stops.
Qed.

(** X18.  With a writer that cannot flush, or cannot notify, [Handler]
    panics after it has handed its subscription to the server and without
    ever unsubscribing it or flushing: run against a looping server, what
    it asked of the server completes and leaves the new subscription in
    the set of its channel. *)
Theorem handler_without_flusher_leaves_its_subscription
    a c wr lid ins (w : world Event) :
  running w = true →
  is_flusher wr = false ∨ is_close_notifier wr = false →
  let p := fresh (dom (heap w)) in
  let r := Handler a c wr lid p ins in
  r.2 = Panicked ∧ flushes r.1 = 0 ∧ written r.1 = [] ∧
  server_actions r.1 = [NewSub c lid; Subscribe p] ∧
  ∃ w', exec (server_actions r.1) w = Ok w' ∧
    ∃ X, subs w' !! c = Some X ∧ p ∈ X.
Proof.
  intros Hrun Hbad p r.
  destruct (handler_pre_facts a c lid p) as (Hs & Hw & Hfl).
  assert (r = (handler_pre a c lid p, Panicked)) as ->.
  { unfold r, Handler. destruct Hbad as [-> | ->]; [done|].
    by destruct (is_flusher wr). }
  cbn [fst snd]. split_and!; [done..|]. rewrite Hs.
  unfold exec. cbn [foldM]. simpl step. unfold new_sub. cbn [obind].
  set (w1 := {| heap := _ |}).
  assert (Hp : heap w1 !! p = Some {| channel := c; lastEventId := lid;
                                      out := fresh (dom (chans w)) |})
    by apply lookup_insert_eq.
  destruct (run_subs_ok w1 p _ Hp) as (w' & H & _ & _ & _ & _ & Hsb & _).
  unfold Subscribe. simpl step. unfold run. simpl. rewrite Hrun, H. simpl.
  exists w'. split; [done|]. eexists. rewrite Hsb. simpl.
  rewrite decide_True by done. split; [done|].
  by apply elem_of_union_l, elem_of_singleton.
Qed.

(** X19.  Whatever the writer, the select results and the way it ends,
    [Handler] leaves the response headers with the event-stream content
    type, the no-cache cache control and the keep-alive connection value,
    each as the only value of its key; with [Access-Control-Allow-Origin]
    set to the single value [*] when [AllowCORS] is set and as it was
    otherwise; and with every other key as it was. *)
Theorem handler_sets_the_stream_headers a c wr lid p ins h k :
  headers_after (Handler a c wr lid p ins).1 h !! k
  = if decide (k = "Content-Type"%string)
    then Some ["text/event-stream; charset=utf-8"%string]
    else if decide (k = "Cache-Control"%string)
    then Some ["no-cache, no-store, must-revalidate"%string]
    else if decide (k = "Connection"%string)
    then Some ["keep-alive"%string]
    else if decide (k = "Access-Control-Allow-Origin"%string ∧ a = true)
    then Some ["*"%string]
    else h !! k.
Proof.
  assert (headers_after (Handler a c wr lid p ins).1 h
          = headers_after (handler_pre (Event:=Event) a c lid p) h) as ->.
  { unfold Handler.
    destruct (is_flusher wr), (is_close_notifier wr); try done. cbn [fst].
    rewrite headers_after_app.
    change (Flush :: Do (Enter p) :: ?l)
      with ([Flush (Event:=Event); Do (Enter p)] ++ l).
    rewrite headers_after_app.
    destruct (handler_loop_output p ins) as (_ & _ & ->). done. }
  unfold headers_after, header_set.
  destruct a; simpl; rewrite !lookup_insert;
    repeat match goal with
           | |- context [decide (?x = k)] => destruct (decide (x = k)) as [<-|?]
           end;
    try reflexivity;
    repeat (case_decide; try done); intuition congruence.
Qed.

(** Whatever the writer, what [Handler] asks of the server starts with
    building its subscription and sending it. *)
Lemma handler_server_prefix a c wr lid p ins :
  ∃ tail, server_actions (Handler a c wr lid p ins).1
          = NewSub c lid :: Subscribe p :: tail.
Proof.
  destruct (handler_pre_facts a c lid p) as (Hs & _ & _). unfold Handler.
  destruct (is_flusher wr), (is_close_notifier wr); cbn [fst];
    rewrite ?server_actions_app, Hs; eauto.
Qed.

(** X20.  A request that comes in after [run] has returned is never
    served: whatever its writer and whatever its select would get, its
    handler builds its subscription and then waits for ever sending it on
    [srv.subs], so what it asks of the server never completes. *)
Theorem handler_after_close_never_subscribes a c wr lid ins (w : world Event) :
  running w = false →
  exec (server_actions (Handler a c wr lid (fresh (dom (heap w))) ins).1) w
  = Blocked.
Proof.
  intros Hstop.
  destruct (handler_server_prefix a c wr lid (fresh (dom (heap w))) ins)
    as [tail ->].
  unfold exec. cbn [foldM]. simpl step. unfold new_sub. cbn [obind].
  unfold Subscribe. simpl step. unfold run. simpl. by rewrite Hstop.
Qed.

End handler_more.

(** * The further properties on the concrete server *)

Lemma publish_without_subscribers_changes_nothing_witness :
  running subscribed = true ∧
  run (MsgPub ["alerts"%string] "x"%string) subscribed = Ok subscribed.
Proof.
  split; [reflexivity|].
  apply publish_without_subscribers_changes_nothing; [reflexivity|].
  intros c Hc. apply list_elem_of_singleton in Hc. rewrite Hc.
  vm_compute; reflexivity.
Defined.

Lemma unsubscribed_gets_no_publish_witness :
  run (MsgUnregister 1%positive) listening = Ok listening_without_1 ∧
  run (MsgPub ["news"%string] "9"%string) listening_without_1
  = Ok published_without_1 ∧
  chans published_without_1 !! 1%positive = chans listening !! 1%positive ∧
  chans published_without_1 !! 3%positive
  = Some {| closed := false; sent := [(Live, "9"%string)] |}.
Proof.
  assert (Hu : run (MsgUnregister 1%positive) listening
               = Ok listening_without_1) by (vm_compute; reflexivity).
  assert (Hp : run (MsgPub ["news"%string] "9"%string) listening_without_1
               = Ok published_without_1) by (vm_compute; reflexivity).
  split; [exact Hu|]. split; [exact Hp|].
  split; [|vm_compute; reflexivity].
  destruct (unsubscribed_gets_no_publish to_listening listening 1%positive
              {| channel := "news"; lastEventId := "5"; out := 1%positive |}
              ["news"%string] "9"%string)
    as (w1 & H1 & Hpub);
    [vm_compute; reflexivity|reflexivity|vm_compute; reflexivity|].
  rewrite Hu in H1. injection H1 as <-.
  exact (Hpub published_without_1 Hp).
Defined.



Lemma paths_only_grow_witness :
  exec [Close] subscribed = Ok stopped ∧
  ∃ st', chans stopped !! 1%positive = Some st' ∧
    [] `prefix_of` sent st'.
Proof.
  split; [vm_compute; reflexivity|].
  destruct (paths_only_grow [Close] subscribed stopped 1%positive
              {| closed := false; sent := [] |})
    as (st' & Hst' & Hpre & _); [vm_compute; reflexivity..|].
  exists st'. split; [exact Hst'|exact Hpre].
Defined.

Lemma tables_never_lose_a_channel_witness :
  exec [Unsubscribe 1%positive] subscribed = Ok unsubscribed ∧
  is_Some (subs unsubscribed !! "news"%string) ∧
  is_Some (repos unsubscribed !! "news"%string).
Proof.
  split; [vm_compute; reflexivity|].
  destruct (tables_never_lose_a_channel [Unsubscribe 1%positive]
              subscribed unsubscribed "news"%string) as [Hs Hr];
    [vm_compute; reflexivity|].
  split; [apply Hs|apply Hr]; eexists; vm_compute; reflexivity.
Defined.

Lemma stopped_server_stays_stopped_witness :
  running stopped = false ∧
  exec [NewSub "news" ""] stopped = Ok after_stop ∧
  subs after_stop = subs stopped ∧ running after_stop = false.
Proof.
  split; [reflexivity|]. split; [vm_compute; reflexivity|].
  destruct (stopped_server_stays_stopped [NewSub "news" ""] stopped after_stop)
    as (_ & Hs & _ & Hstop); [reflexivity|vm_compute; reflexivity|].
  split; [exact Hs|exact Hstop].
Defined.

Lemma replay_goroutines_keep_to_their_path_witness :
  tasks subscribed !! 0 = Some {| t_repo := history; t_sub := 1%positive; t_sent := 0 |} ∧
  ∃ s, heap subscribed !! 1%positive = Some s ∧ lastEventId s ≠ ""%string.
Proof.
  split; [vm_compute; reflexivity|].
  destruct (replay_goroutines_keep_to_their_path to_subscribed subscribed 0
              {| t_repo := history; t_sub := 1%positive; t_sent := 0 |})
    as (s & Hs & Hid & _); [vm_compute; reflexivity..|].
  exists s. split; [exact Hs|exact Hid].
Defined.

Lemma at_most_one_replay_per_subscribe_witness :
  exec to_subscribed NewServer = Ok subscribed ∧
  replays_of 1%positive (tasks subscribed) ≤ subscribes_of 1%positive to_subscribed.
Proof.
  split; [vm_compute; reflexivity|].
  apply at_most_one_replay_per_subscribe. vm_compute; reflexivity.
Defined.

Lemma every_subscription_has_its_own_open_path_witness :
  heap subscribed !! 1%positive
  = Some {| channel := "news"; lastEventId := "5"; out := 1%positive |} ∧
  ∃ st, chans subscribed !! 1%positive = Some st ∧
    (running subscribed = true → closed st = false).
Proof.
  split; [vm_compute; reflexivity|].
  destruct (every_subscription_has_its_own_open_path to_subscribed subscribed
              1%positive
              {| channel := "news"; lastEventId := "5"; out := 1%positive |})
    as [_ Hpath]; [vm_compute; reflexivity..|].
  exact Hpath.
Defined.

Lemma subscribe_unsubscribe_round_trip_witness :
  ∃ w1 w2, run (MsgSubs 4%positive) subscribed = Ok w1 ∧
    run (MsgUnregister 4%positive) w1 = Ok w2 ∧
    subs w2 = subs subscribed ∧ chans w2 = chans subscribed.
Proof.
  destruct (subscribe_unsubscribe_round_trip subscribed 4%positive
              {| channel := "news"; lastEventId := "5"; out := 4%positive |})
    as (w1 & w2 & H1 & H2 & Hs & Hc & _).
  - reflexivity.
  - vm_compute; reflexivity.
  - apply (bool_decide_unpack _). vm_compute. exact I.
  - exists w1, w2. split; [exact H1|]. split; [exact H2|].
    split; [|exact Hc]. rewrite Hs. vm_compute; reflexivity.
Defined.


Lemma handler_writes_what_it_receives_witness :
  written (Handler true "news" full_writer "5" 1%positive one_event_then_gone).1
  = ["6"%string] ∧
  flushes (Handler true "news" full_writer "5" 1%positive one_event_then_gone).1
  = 2.
Proof.
  destruct (handler_writes_what_it_receives true "news"%string
              full_writer "5"%string 1%positive one_event_then_gone)
    as (Hw & Hf & _); [reflexivity..|].
  split; [exact Hw|exact Hf].
Defined.

Lemma handler_consumes_nothing_after_its_end_witness :
  Handler true "news" full_writer "5" 1%positive
    (one_event_then_gone ++ [OutEvent "7"%string false])
  = Handler true "news" full_writer "5" 1%positive one_event_then_gone.
Proof.
  apply handler_consumes_nothing_after_its_end.
  vm_compute. discriminate.
Defined.

Lemma handler_without_flusher_leaves_its_subscription_witness :
  running subscribed = true ∧ is_close_notifier flush_only_writer = false ∧
  (Handler false "news" flush_only_writer "" (fresh (dom (heap subscribed)))
     one_event_then_gone).2 = Panicked.
Proof.
  split; [reflexivity|]. split; [reflexivity|].
  destruct (handler_without_flusher_leaves_its_subscription false "news"%string
              flush_only_writer ""%string one_event_then_gone subscribed)
    as (Hend & _); [reflexivity|right; reflexivity|].
  exact Hend.
Defined.

Lemma repository_is_the_last_registered_witness :
  exec to_subscribed NewServer = Ok subscribed ∧
  repos subscribed !! "news"%string
  = last_registered "news" None to_subscribed.
Proof.
  split; [vm_compute; reflexivity|].
  apply (repository_is_the_last_registered to_subscribed NewServer subscribed).
  vm_compute; reflexivity.
Defined.

Lemma in_table_iff_last_was_subscribe_witness :
  member_after 1%positive false to_subscribed = true ∧
  ∃ c X, subs subscribed !! c = Some X ∧ 1%positive ∈ X.
Proof.
  split; [reflexivity|].
  apply (in_table_iff_last_was_subscribe to_subscribed subscribed 1%positive);
    [vm_compute; reflexivity|reflexivity].
Defined.

Lemma live_path_is_what_was_published_while_subscribed_witness :
  chans published !! 1%positive
  = Some {| closed := false; sent := [(Live, "9"%string)] |} ∧
  live [(Live, "9"%string)]
  = published_to 1%positive "news" false
      (to_listening ++ [Publish ["news"%string] "9"%string]).
Proof.
  split; [vm_compute; reflexivity|].
  apply (live_path_is_what_was_published_while_subscribed
           (to_listening ++ [Publish ["news"%string] "9"%string]) published
           1%positive
           {| channel := "news"; lastEventId := "5"; out := 1%positive |}
           {| closed := false; sent := [(Live, "9"%string)] |});
    vm_compute; reflexivity.
Defined.

Lemma handler_after_close_never_subscribes_witness :
  running stopped = false ∧
  exec (server_actions
          (Handler true "news" full_writer "5" (fresh (dom (heap stopped)))
             one_event_then_gone).1) stopped
  = Blocked.
Proof.
  split; [reflexivity|].
  apply handler_after_close_never_subscribes. reflexivity.
Defined.

Lemma departed_handler_gets_nothing_more_witness :
  exec to_departed NewServer = Ok departed ∧
  exec [Unsubscribe 1%positive; Publish ["news"%string] "9"%string] departed
  = Ok after_departure ∧
  handlers after_departure !! 1%positive = Some Left ∧
  ∃ st', chans after_departure !! 1%positive = Some st' ∧
    sent st' = [(Replayed 0, "6"%string)].
Proof.
  split; [vm_compute; reflexivity|]. split; [vm_compute; reflexivity|].
  apply (departed_handler_gets_nothing_more to_departed departed
           [Unsubscribe 1%positive; Publish ["news"%string] "9"%string]
           after_departure 1%positive
           {| closed := false; sent := [(Replayed 0, "6"%string)] |});
    vm_compute; reflexivity.
Defined.
